(** * Layer-chain composition in [daemon/create.go]

    A shallow embedding of [compose], [restore], [getParentIds] and of the
    control flow of the daemon method [create], together with the properties of the
    layer-chain descriptor they maintain.

    Go strings are byte strings and are modelled by [string]; the file system
    is a finite map from cleaned absolute paths to the contents of regular
    files; Go's [(T, error)] results and run-time panics are constructors of
    [outcome]. *)

From Stdlib Require Import Ascii NArith Lia.
From stdpp Require Import gmap strings list fin_maps.

(** ** Results, errors and the state monad *)

(** The collaborators of [create] that live outside this file, in call order. *)
Inductive Step :=
| GetImage | mergeAndVerifyConfig | newContainer
| setSecurityOptions | setRWLayer | Register | GetRootUIDGID | MkdirAs
| setHostConfig
| createContainerPlatformSpecificSettings | updateContainerNetworkSettings
| ToDiskLocking
| removeMountPoints | ContainerRm.

(** The [error] values that reach the code: [*os.PathError] (open, remove,
    write), [*os.LinkError] (rename), [bufio.ErrTooLong], and whatever an
    external collaborator returns. *)
Inductive error :=
| PathError (op path : string)
| LinkError (op oldpath newpath : string)
| ErrTooLong
| StepError (s : Step).

Inductive outcome (A : Type) :=
| Ok (a : A)
| Err (e : error)
| Panic (msg : string)
| Timeout.
Arguments Ok {A} a.
Arguments Err {A} e.
Arguments Panic {A} msg.
Arguments Timeout {A}.

(** A computation over a state [S] that returns, fails with an [error],
    panics, or exhausts the fuel of a loop ([Timeout], shown unreachable). *)
Definition M (S A : Type) : Type := S → S * outcome A.

Definition ret {S A} (a : A) : M S A := λ s, (s, Ok a).
Definition throw {S A} (e : error) : M S A := λ s, (s, Err e).
Definition panic {S A} (msg : string) : M S A := λ s, (s, Panic msg).
Definition timeout {S A} : M S A := λ s, (s, Timeout).

Definition bind {S A B} (m : M S A) (k : A → M S B) : M S B :=
  λ s, match m s with
       | (s', Ok a) => k a s'
       | (s', Err e) => (s', Err e)
       | (s', Panic msg) => (s', Panic msg)
       | (s', Timeout) => (s', Timeout)
       end.

Notation "'let*' x := m 'in' k" := (bind m (λ x, k))
  (at level 10, x name, m at level 100, k at level 200).
Notation "m >> k" := (bind m (λ _, k))
  (at level 100, k at level 200, right associativity).

Definition lift_outcome {S A} (r : outcome A) : M S A := λ s, (s, r).

(** [s[i]] on a slice: a run-time panic when out of range. *)
Definition index {S A} (l : list A) (i : nat) : M S A :=
  match l !! i with
  | Some x => ret x
  | None => panic "index out of range"
  end.

(** [for i := lo; i < hi; i++ { body }] for a body that does not assign [i]:
    the body runs on the indices it is given, in order. *)
Fixpoint for_range {S} (indices : list nat) (body : nat → M S unit) : M S unit :=
  match indices with
  | [] => ret tt
  | i :: indices => body i >> for_range indices body
  end.

(** ** The Go library functions the code calls *)

Definition LF : ascii := "010"%char.
Definition CR : ascii := "013"%char.

(** [strings.Split(s, sep)] for a one-byte separator: always at least one
    field. *)
Fixpoint strings_Split (s : string) (sep : ascii) : list string :=
  match s with
  | EmptyString => [EmptyString]
  | String c s' =>
    if Ascii.eqb c sep then EmptyString :: strings_Split s' sep
    else match strings_Split s' sep with
         | [] => [String c EmptyString]
         | field :: fields => String c field :: fields
         end
  end.

(** [strings.Join(elems, sep)]. *)
Fixpoint strings_Join (elems : list string) (sep : string) : string :=
  match elems with
  | [] => ""
  | [e] => e
  | e :: elems => e +:+ sep +:+ strings_Join elems sep
  end.

(** [strings.Replace(s, old, "", -1)] for a one-byte [old]. *)
Fixpoint strings_Replace (s : string) (old : ascii) : string :=
  match s with
  | EmptyString => EmptyString
  | String c s' =>
    if Ascii.eqb c old then strings_Replace s' old
    else String c (strings_Replace s' old)
  end.

(** [path.Clean]: the path is cut at its slashes; empty and [.] elements are
    dropped, [..] removes the element before it, stops at the root of a
    rooted path and stacks up at the front of a relative one. [out] holds the
    elements kept so far, last one first. *)
Fixpoint clean_elems (rooted : bool) (elems out : list string) : list string :=
  match elems with
  | [] => out
  | e :: elems =>
    if bool_decide (e = "") || bool_decide (e = ".") then
      clean_elems rooted elems out
    else if bool_decide (e = "..") then
      match out with
      | top :: out' =>
        if bool_decide (top = "..") then clean_elems rooted elems (e :: out)
        else clean_elems rooted elems out'
      | [] =>
        if rooted then clean_elems rooted elems []
        else clean_elems rooted elems [e]
      end
    else clean_elems rooted elems (e :: out)
  end.

Definition path_Clean (p : string) : string :=
  match p with
  | EmptyString => "."
  | String c _ =>
    let rooted := Ascii.eqb c "/" in
    let out :=
      strings_Join (reverse (clean_elems rooted (strings_Split p "/") [])) "/" in
    if rooted then "/" +:+ out
    else if bool_decide (out = "") then "." else out
  end.

(** [path.Join]: leading empty elements are ignored, the rest is joined with
    slashes and cleaned. *)
Fixpoint path_Join (elem : list string) : string :=
  match elem with
  | [] => ""
  | e :: elem' =>
    if bool_decide (e = "") then path_Join elem'
    else path_Clean (strings_Join elem "/")
  end.

(** [bufio.Scanner] with the default [ScanLines] split function: the data is
    cut at each newline, one trailing carriage return is dropped from every
    line, an empty remainder after the last newline is no line, and a line of
    [MaxScanTokenSize] bytes or more stops the scan with [ErrTooLong].
    The result is the list of tokens [s.Text()] takes and the final
    [s.Err()]. *)
Definition MaxScanTokenSize : N := 65536.

Fixpoint dropCR (data : string) : string :=
  match data with
  | EmptyString => EmptyString
  | String c EmptyString =>
    if Ascii.eqb c CR then EmptyString else data
  | String c data' => String c (dropCR data')
  end.

Definition too_long (line : string) : bool :=
  (MaxScanTokenSize <=? N.of_nat (String.length line))%N.

Fixpoint scan_tokens (segments : list string) : list string * option error :=
  match segments with
  | [] => ([], None)
  | [rest] =>
    if bool_decide (rest = "") then ([], None)
    else if too_long rest then ([], Some ErrTooLong)
    else ([dropCR rest], None)
  | line :: segments =>
    if too_long line then ([], Some ErrTooLong)
    else let '(tokens, err) := scan_tokens segments in
         (dropCR line :: tokens, err)
  end.

Definition bufio_Scan (data : string) : list string * option error :=
  scan_tokens (strings_Split data LF).

(** ** The file system *)

(** Regular files by path. Directories are not represented here: the
    directory of a path that is looked up is taken to exist, and no directory
    stands at a path that is opened or renamed to; [compose] over a file
    system in which directories stand at such paths comes after [create], as
    [compose_dirs]. Writing to an open file and creating a file in the
    directory of a file just renamed do not fail: a run in which [os.Create]
    or [fmt.Fprintln] returns an error for a reason outside the files (a
    full disk, a limit on open handles), with the descriptor already moved,
    is not among the runs described. *)
Abbreviation FS := (gmap string string).

(** [os.Open] followed by reading the handle to its end. Every handle the
    code opens for reading is read in full before the next file operation, so
    the handle is its content at the time of the call. *)
Definition os_Open (name : string) : M FS string :=
  λ fs, match fs !! name with
        | Some data => (fs, Ok data)
        | None => (fs, Err (PathError "open" name))
        end.

(** [os.Rename]: an existing regular file at [newpath] is replaced. *)
Definition os_Rename (oldpath newpath : string) : M FS unit :=
  λ fs, match fs !! oldpath with
        | Some data => (<[newpath := data]> (delete oldpath fs), Ok tt)
        | None => (fs, Err (LinkError "rename" oldpath newpath))
        end.

Definition os_Remove (name : string) : M FS unit :=
  λ fs, match fs !! name with
        | Some _ => (delete name fs, Ok tt)
        | None => (fs, Err (PathError "remove" name))
        end.

(** [os.Create]: the file is created or truncated; the handle for writing is
    the path. *)
Definition os_Create (name : string) : M FS string :=
  λ fs, (<[name := ""]> fs, Ok name).

(** [fmt.Fprintln(f, a)] for one string operand: [a] and a newline are
    appended to the file. *)
Definition fmt_Fprintln (f : string) (a : string) : M FS unit :=
  λ fs, match fs !! f with
        | Some data => (<[f := data +:+ a +:+ String LF ""]> fs, Ok tt)
        | None => (fs, Err (PathError "write" f))
        end.

(** ** [getParentIds] *)

(** The loop [for s.Scan() { if t := s.Text(); t != "" { out = append(out, s.Text()) } }]. *)
Fixpoint nonblank (tokens : list string) (out : list string) : list string :=
  match tokens with
  | [] => out
  | t :: tokens =>
    if bool_decide (t ≠ "") then nonblank tokens (out ++ [t])
    else nonblank tokens out
  end.

Definition getParentIds (layersP : string) : M FS (list string) :=
  let* f := os_Open layersP in
  let '(tokens, err) := bufio_Scan f in
  let out := nonblank tokens [] in
  match err with
  | None => ret out
  | Some e => throw e
  end.

(** ** [compose] *)

(** The manifest loop: [m := strings.Split(t, ","); functionM[m[0]] = m[1]]
    for every token that is not empty. [m[0]] always exists; [m[1]] is out of
    range when the line has no comma. *)
Fixpoint load_manifest (tokens : list string) (functionM : gmap string string)
  : outcome (gmap string string) :=
  match tokens with
  | [] => Ok functionM
  | t :: tokens =>
    if bool_decide (t ≠ "") then
      match strings_Split t "," with
      | m0 :: m1 :: _ => load_manifest tokens (<[m0 := m1]> functionM)
      | _ => Panic "index out of range"
      end
    else load_manifest tokens functionM
  end.

(** Reading a Go map at a key it does not hold gives the zero value. *)
Definition map_get (functionM : gmap string string) (key : string) : string :=
  default "" (functionM !! key).

Definition layerdbP (digest : string) : string :=
  path_Join ["/var/lib/docker/image/aufs/layerdb/sha256"; digest; "cache-id"].

(** The loop over [paras] that fills [composeS]. The error of
    [ioutil.ReadAll] is dropped by the code; reading a regular file to its
    end gives its content. *)
Fixpoint resolve (functionM : gmap string string) (paras composeS : list string)
  : M FS (list string) :=
  match paras with
  | [] => ret composeS
  | para :: paras =>
    let* fd := os_Open (layerdbP (map_get functionM para)) in
    resolve functionM paras (composeS ++ [strings_Replace fd LF])
  end.

(** The loop that writes the parent layers. The inner loop assigns the
    outer loop's own [i], so the outer loop is iterated on fuel; the inner
    loop leaves [i] at [max (i + 1) length]. *)
Fixpoint write_parents (fuel : nat) (replaceF : string) (ids : list string)
    (composeS : list string) (length i : nat) : M FS unit :=
  match fuel with
  | O => timeout
  | S fuel =>
    if i <? length then
      let* id := index ids i in
      let* split := index composeS 0 in
      if bool_decide (id ≠ split) then
        write_parents fuel replaceF ids composeS length (i + 1)
      else
        for_range (seq (i + 1) (length - (i + 1)))
          (λ i, let* id := index ids i in fmt_Fprintln replaceF id) >>
        write_parents fuel replaceF ids composeS length (Nat.max (i + 1) length + 1)
    else ret tt
  end.

Definition manifestP (para : string) : string :=
  path_Join ["/var/lib/docker/image/aufs/imagedb"; "manifest"; para].

Definition layersP_of (top : string) : string :=
  path_Join ["/var/lib/docker/aufs/layers"; top].

Definition compose (paras : list string) : M FS string :=
  (* function2layerdb => map *)
  let* para0 := index paras 0 in
  let* manifestF := os_Open (manifestP para0) in
  let* functionM := lift_outcome (load_manifest (bufio_Scan manifestF).1 ∅) in
  (* paras to be composed => slice *)
  let paras := paras ++ ["chainID"] in
  let* composeS := resolve functionM paras [] in
  (* backup and replace origin layers file *)
  let* top := index composeS (length composeS - 1) in
  let layersP := layersP_of top in
  let* ids := getParentIds layersP in
  os_Rename layersP (strings_Join [layersP; "-backup"] "") >>
  let* replaceF := os_Create layersP in
  (* write layers to be composed *)
  let length_ := length composeS in
  for_range (seq 1 (length_ - 1))
    (λ i, let* id := index composeS (length_ - 1 - i) in
          fmt_Fprintln replaceF id) >>
  (* write parent layers *)
  let length_ := length ids in
  write_parents (S length_) replaceF ids composeS length_ 0 >>
  ret layersP.

(** ** [restore] *)

Definition restore (layersP : string) : M FS unit :=
  os_Remove layersP >>
  os_Rename (strings_Join [layersP; "-backup"] "") layersP.

(** ** [create] *)

(** What [create] does to the world: the files, and the calls it makes to
    [compose], [restore] and its collaborators, in order. *)
Inductive Call :=
| CallCompose (paras : list string)
| CallRestore (layersP : string)
| CallStep (s : Step).

Record World := mkWorld { files : gmap string string; calls : list Call }.

(** The collaborators are arbitrary Go functions that return an [error]: each
    may change files, and returns nil ([None]) or an error. *)
Definition Collaborators : Type :=
  Step → gmap string string → gmap string string * option error.

Definition on_files {A} (c : Call) (m : M (gmap string string) A) : M World A :=
  λ w, let '(fs, r) := m (files w) in
       (mkWorld fs (calls w ++ [c]), r).

Definition call (d : Collaborators) (s : Step) : M World unit :=
  on_files (CallStep s)
    (λ fs, let '(fs', err) := d s fs in
           (fs', match err with None => Ok tt | Some e => Err e end)).

(** [if err := f(); err != nil { logrus.Error(err) }]: the error is logged
    and execution goes on. *)
Definition logged {S} (m : M S unit) : M S unit :=
  λ s, match m s with
       | (s', Err _) => (s', Ok tt)
       | r => r
       end.

(** [defer func() { if retErr != nil { cleanup } }()] in front of [body].
    The deferred function runs when [body] returns; it acts when the named
    result [retErr] is set. While a panic unwinds, [retErr] is still nil. *)
Definition defer_if_retErr {A} (cleanup : M World unit) (body : M World A)
  : M World A :=
  λ w, match body w with
       | (w', Err retErr) => (cleanup >> throw retErr) w'
       | r => r
       end.

(** The three stretches of [create] that its two [defer] statements
    separate. [Image] is [params.Config.Image]; the first stretch returns
    [layersP], which stays empty when no image is named. *)
Definition before_defers (d : Collaborators) (Image : string) : M World string :=
  let* layersP :=
    (if bool_decide (Image ≠ "") then
       let tmp := strings_Split Image "_" in
       let* layersP :=
         on_files (CallCompose (drop 1 tmp)) (compose (drop 1 tmp)) in
       call d GetImage >>
       ret layersP
     else ret "") in
  call d mergeAndVerifyConfig >>
  call d newContainer >>
  ret layersP.

Definition between_defers (d : Collaborators) : M World unit :=
  call d setSecurityOptions >>
  call d setRWLayer >>
  call d Register >>
  call d GetRootUIDGID >>
  call d MkdirAs >>
  call d setHostConfig.

Definition after_defers (d : Collaborators) : M World unit :=
  call d createContainerPlatformSpecificSettings >>
  call d updateContainerNetworkSettings >>
  call d ToDiskLocking.

(** The result [Ok tt] stands for the returned container.
    [daemon.LogContainerEvent], which returns nothing, is left out. *)
Definition create (d : Collaborators) (Image : string) : M World unit :=
  let* layersP := before_defers d Image in
  defer_if_retErr (logged (call d ContainerRm))
   (between_defers d >>
    defer_if_retErr (logged (call d removeMountPoints))
     (after_defers d >>
      on_files (CallRestore layersP) (restore layersP) >>
      ret tt)).

(** ** Vocabulary of the properties *)

(** The bytes [fmt.Fprintln] produces for a list of entries. *)
Fixpoint fprintlns (entries : list string) : string :=
  match entries with
  | [] => ""
  | e :: entries => e +:+ String LF "" +:+ fprintlns entries
  end.

(** The entries of a chain strictly after the first occurrence of [key];
    none when [key] does not occur. *)
Fixpoint after_first (key : string) (chain : list string) : list string :=
  match chain with
  | [] => []
  | e :: chain => if bool_decide (e = key) then chain else after_first key chain
  end.

(** The CacheID a name resolves to: the digest the manifest map gives for it
    (the empty digest when it has none), then the content of that digest's
    [cache-id] file without its newlines. *)
Definition cache_id (fs : gmap string string) (functionM : gmap string string)
    (para : string) : option string :=
  (λ fd, strings_Replace fd LF) <$> fs !! layerdbP (map_get functionM para).

Definition backupP (layersP : string) : string := layersP +:+ "-backup".

(** Whether some scanned line of a manifest is a record for [name]: it has
    a comma, and [name] is what stands before its first comma. *)
Definition has_record (tokens : list string) (name : string) : bool :=
  existsb (λ t, match strings_Split t "," with
                | m0 :: _ :: _ => bool_decide (m0 = name)
                | _ => false
                end) tokens.

(** The entries [getParentIds] takes from the content of a descriptor. *)
Definition parse_chain (data : string) : list string :=
  nonblank (bufio_Scan data).1 [].

(** The files once [layersP], which held [D], has been moved to its backup
    path and written anew with [content]. *)
Definition swapped (fs : gmap string string) (layersP D content : string)
  : gmap string string :=
  <[layersP := content]> (<[backupP layersP := D]> (delete layersP fs)).

(** Everything a request needs of the files to be composed: the manifest
    named by its first name loads into [functionM], every name and the
    reserved name resolve to a CacheID, and the descriptor keyed by the
    reserved layer's CacheID can be read. *)
Definition resolves (fs : gmap string string) (paras : list string)
    (functionM : gmap string string) (funcs : list string) (top D : string)
  : Prop :=
  (∃ para0 manifestF,
     paras !! 0 = Some para0 ∧
     fs !! manifestP para0 = Some manifestF ∧
     load_manifest (bufio_Scan manifestF).1 ∅ = Ok functionM) ∧
  mapM (cache_id fs functionM) paras = Some funcs ∧
  cache_id fs functionM "chainID" = Some top ∧
  fs !! layersP_of top = Some D ∧
  (bufio_Scan D).2 = None.

(** The CacheID the split is taken at, [composeS[0]]: the one resolved for
    the first name of the request. *)
Definition split_point (funcs : list string) (top : string) : string :=
  default top (head funcs).

(** ** Concrete requests and file systems *)

(** The request [f1, f2] of the running example: a manifest named by the
    first name, one [cache-id] file per digest, and the descriptor of the
    reserved top layer with chain [ca1, base, p1, p2]. *)
Definition example_manifest : string :=
  fprintlns ["f1,sha-A"; "f2,sha-B"; ""; "chainID,sha-T"].

Definition example_fs : gmap string string :=
  {[ manifestP "f1" := example_manifest;
     layerdbP "sha-A" := fprintlns ["ca1"];
     layerdbP "sha-B" := "ca2";
     layerdbP "sha-T" := fprintlns ["top"];
     layersP_of "top" := fprintlns ["ca1"; "base"; "p1"; "p2"] ]}.

(** The map its manifest loads into. *)
Definition example_functionM : gmap string string :=
  {[ "f1" := "sha-A"; "f2" := "sha-B"; "chainID" := "sha-T" ]}.

(** The files of the example once [compose] has run on it. *)
Definition example_composed : gmap string string :=
  swapped example_fs (layersP_of "top")
    (fprintlns ["ca1"; "base"; "p1"; "p2"])
    (fprintlns ["ca2"; "ca1"; "base"; "p1"; "p2"]).

(** The same, with a chain in which the split point [ca1] does not occur. *)
Definition no_split_fs : gmap string string :=
  <[layersP_of "top" := fprintlns ["base"; "p1"; "p2"]]> example_fs.

(** The same, with a backup left behind by an earlier composition. *)
Definition stale_backup_fs : gmap string string :=
  <[backupP (layersP_of "top") := fprintlns ["stale"]]> example_fs.

(** A manifest whose second line has no comma. *)
Definition malformed_fs : gmap string string :=
  <[manifestP "f1" := fprintlns ["f1,sha-A"; "f2"; "chainID,sha-T"]]> example_fs.

(** A manifest with no [chainID] record, and a [cache-id] file directly under
    the digest directory, where the empty digest leads. *)
Definition no_chainID_fs : gmap string string :=
  <[manifestP "f1" := fprintlns ["f1,sha-A"; "f2,sha-B"]]>
    (<[layerdbP "" := fprintlns ["top"]]> example_fs).

Definition no_chainID_functionM : gmap string string :=
  {[ "f1" := "sha-A"; "f2" := "sha-B" ]}.

(** Collaborators that all succeed and touch no file, and the same with one
    step that fails. *)
Definition all_succeed : Collaborators := λ _ fs, (fs, None).

Definition step_eqb (s1 s2 : Step) : bool :=
  match s1, s2 with
  | GetImage, GetImage | mergeAndVerifyConfig, mergeAndVerifyConfig
  | newContainer, newContainer | setSecurityOptions, setSecurityOptions
  | setRWLayer, setRWLayer | Register, Register
  | GetRootUIDGID, GetRootUIDGID | MkdirAs, MkdirAs
  | setHostConfig, setHostConfig
  | createContainerPlatformSpecificSettings,
    createContainerPlatformSpecificSettings
  | updateContainerNetworkSettings, updateContainerNetworkSettings
  | ToDiskLocking, ToDiskLocking
  | removeMountPoints, removeMountPoints | ContainerRm, ContainerRm => true
  | _, _ => false
  end.

(** The steps [create] runs outside its deferred functions. *)
Definition main_line (s : Step) : bool :=
  match s with
  | removeMountPoints | ContainerRm => false
  | _ => true
  end.

Definition fails_at (s0 : Step) : Collaborators :=
  λ s fs, (fs, if step_eqb s s0 then Some (StepError s) else None).

(** ** Further vocabulary *)

(** Whether the byte [c] occurs in [s]. *)
Fixpoint contains (s : string) (c : ascii) : bool :=
  match s with
  | EmptyString => false
  | String a s' => Ascii.eqb a c || contains s' c
  end.

(** An entry that a descriptor line carries unchanged: it is not empty, has
    no newline in it, does not end in a carriage return, and is shorter than
    the limit of the scanner. *)
Definition plain_entry (e : string) : Prop :=
  e ≠ "" ∧ contains e LF = false ∧ dropCR e = e ∧ too_long e = false.

(** Collaborators that leave every file as it is, whatever they return. *)
Definition keeps_files (d : Collaborators) : Prop :=
  ∀ s (fs : gmap string string), (d s fs).1 = fs.

(** The example without the descriptor of its top layer. *)
Definition no_descriptor_fs : gmap string string :=
  delete (layersP_of "top") example_fs.

(** The world of the example before a request for the image [base_f1_f2],
    and after [create] has served it with collaborators that all succeed. *)
Definition example_world : World := mkWorld example_fs [].

Definition example_world_created : World :=
  mkWorld (delete (backupP (layersP_of "top")) example_fs)
    [CallCompose ["f1"; "f2"]; CallStep GetImage;
     CallStep mergeAndVerifyConfig; CallStep newContainer;
     CallStep setSecurityOptions; CallStep setRWLayer; CallStep Register;
     CallStep GetRootUIDGID; CallStep MkdirAs; CallStep setHostConfig;
     CallStep createContainerPlatformSpecificSettings;
     CallStep updateContainerNetworkSettings; CallStep ToDiskLocking;
     CallRestore (layersP_of "top")].

(** ** Directories *)

(** [os.Open] opens a directory as it opens a regular file; it is the reads
    on the handle that fail. [compose] looks at the error of [os.Open] alone:
    the error of the manifest scanner is never asked for and the error of
    [ioutil.ReadAll] is dropped, so a directory in the place of the manifest
    reads as a manifest without lines, and a directory in the place of a
    [cache-id] file as an empty CacheID. [getParentIds] does return
    [s.Err()].

    What follows is [getParentIds], the resolution loop and [compose] once
    more, line by line as above, over a file system that also tells at which
    paths a directory stands, [dirs]. No call of [compose] makes or removes a
    directory. Creating and writing are the operations above. *)
Inductive File :=
| Regular (data : string)
| Directory.

(** What stands at a path: a regular file, a directory, or nothing. *)
Definition node (dirs : gset string) (fs : gmap string string) (name : string)
  : option File :=
  match fs !! name with
  | Some data => Some (Regular data)
  | None => if bool_decide (name ∈ dirs) then Some Directory else None
  end.

(** [os.Open]: the handle of what stands at the path. *)
Definition os_Open_dirs (dirs : gset string) (name : string) : M FS File :=
  λ fs, match node dirs fs name with
        | Some f => (fs, Ok f)
        | None => (fs, Err (PathError "open" name))
        end.

(** [ioutil.ReadAll] on a handle opened at [name]: the bytes read and the
    error of the read. *)
Definition ioutil_ReadAll (name : string) (f : File) : string * option error :=
  match f with
  | Regular data => (data, None)
  | Directory => ("", Some (PathError "read" name))
  end.

(** A [bufio.Scanner] over a handle opened at [name]: the tokens and
    [s.Err()]. A read that fails ends the scan with the error of the read. *)
Definition bufio_Scan_File (name : string) (f : File) : list string * option error :=
  match f with
  | Regular data => bufio_Scan data
  | Directory => ([], Some (PathError "read" name))
  end.

(** [os.Rename] of a regular file: it fails where a directory stands at
    [newpath]. *)
Definition os_Rename_dirs (dirs : gset string) (oldpath newpath : string)
  : M FS unit :=
  λ fs, match node dirs fs newpath with
        | Some Directory => (fs, Err (LinkError "rename" oldpath newpath))
        | _ => os_Rename oldpath newpath fs
        end.

Definition getParentIds_dirs (dirs : gset string) (layersP : string)
  : M FS (list string) :=
  let* f := os_Open_dirs dirs layersP in
  let '(tokens, err) := bufio_Scan_File layersP f in
  let out := nonblank tokens [] in
  match err with
  | None => ret out
  | Some e => throw e
  end.

Fixpoint resolve_dirs (dirs : gset string) (functionM : gmap string string)
    (paras composeS : list string) : M FS (list string) :=
  match paras with
  | [] => ret composeS
  | para :: paras =>
    let layerdbP_ := layerdbP (map_get functionM para) in
    let* layerF := os_Open_dirs dirs layerdbP_ in
    let '(fd, _) := ioutil_ReadAll layerdbP_ layerF in
    resolve_dirs dirs functionM paras (composeS ++ [strings_Replace fd LF])
  end.

Definition compose_dirs (dirs : gset string) (paras : list string) : M FS string :=
  (* function2layerdb => map *)
  let* para0 := index paras 0 in
  let* manifestF := os_Open_dirs dirs (manifestP para0) in
  let* functionM :=
    lift_outcome
      (load_manifest (bufio_Scan_File (manifestP para0) manifestF).1 ∅) in
  (* paras to be composed => slice *)
  let paras := paras ++ ["chainID"] in
  let* composeS := resolve_dirs dirs functionM paras [] in
  (* backup and replace origin layers file *)
  let* top := index composeS (length composeS - 1) in
  let layersP := layersP_of top in
  let* ids := getParentIds_dirs dirs layersP in
  os_Rename_dirs dirs layersP (strings_Join [layersP; "-backup"] "") >>
  let* replaceF := os_Create layersP in
  (* write layers to be composed *)
  let length_ := length composeS in
  for_range (seq 1 (length_ - 1))
    (λ i, let* id := index composeS (length_ - 1 - i) in
          fmt_Fprintln replaceF id) >>
  (* write parent layers *)
  let length_ := length ids in
  write_parents (S length_) replaceF ids composeS length_ 0 >>
  ret layersP.

(** The CacheID a name resolves to when directories are opened too: an
    empty one where a directory stands in the place of the [cache-id]
    file. *)
Definition cache_id_dirs (dirs : gset string) (fs : gmap string string)
    (functionM : gmap string string) (para : string) : option string :=
  let layerdbP_ := layerdbP (map_get functionM para) in
  (λ f, strings_Replace (ioutil_ReadAll layerdbP_ f).1 LF) <$> node dirs fs layerdbP_.

(** [resolves], with directories: the manifest path can be opened and what
    the scanner takes from it loads into [functionM], every [cache-id] path
    can be opened, the descriptor is a regular file that the scanner reads
    to its end, and no directory stands at its backup path. *)
Definition resolves_dirs (dirs : gset string) (fs : gmap string string)
    (paras : list string) (functionM : gmap string string)
    (funcs : list string) (top D : string) : Prop :=
  (∃ para0 manifestF,
     paras !! 0 = Some para0 ∧
     node dirs fs (manifestP para0) = Some manifestF ∧
     load_manifest (bufio_Scan_File (manifestP para0) manifestF).1 ∅
       = Ok functionM) ∧
  mapM (cache_id_dirs dirs fs functionM) paras = Some funcs ∧
  cache_id_dirs dirs fs functionM "chainID" = Some top ∧
  fs !! layersP_of top = Some D ∧
  (bufio_Scan D).2 = None ∧
  node dirs fs (backupP (layersP_of top)) ≠ Some Directory.

(** The directory of the manifests: the path the manifest of an empty first
    name has, as in a request for the image [base_]. *)
Definition manifest_dir : gset string := {[ manifestP "" ]}.

(** Files under which the request with the empty name composes: a
    [cache-id] file where the empty digest leads, and the descriptor of the
    layer it names. *)
Definition empty_name_fs : gmap string string :=
  {[ layerdbP "" := fprintlns ["top"];
     layersP_of "top" := fprintlns ["ca1"; "base"; "p1"; "p2"] ]}.

(** * Properties *)

(** ** Strings *)

Lemma append_cons (c : ascii) (s1 s2 : string) :
  String c s1 +:+ s2 = String c (s1 +:+ s2).
Proof. reflexivity. Qed.

Lemma append_nil_r (s : string) : s +:+ "" = s.
Proof.
  induction s as [|c s IH]; [reflexivity|]. by rewrite append_cons, IH.
Qed.

Lemma append_assoc (s1 s2 s3 : string) : (s1 +:+ s2) +:+ s3 = s1 +:+ s2 +:+ s3.
Proof.
  induction s1 as [|c s1 IH]; [reflexivity|]. by rewrite !append_cons, IH.
Qed.

Lemma length_append (s1 s2 : string) :
  String.length (s1 +:+ s2) = String.length s1 + String.length s2.
Proof.
  induction s1 as [|c s1 IH]; [reflexivity|].
  rewrite append_cons. simpl. by rewrite IH.
Qed.

Lemma strings_Join_backup (layersP : string) :
  strings_Join [layersP; "-backup"] "" = backupP layersP.
Proof. done. Qed.

(** The backup path is never the descriptor path itself. *)
Lemma backupP_ne (layersP : string) : backupP layersP ≠ layersP.
Proof.
  intros H. apply (f_equal String.length) in H.
  unfold backupP in H. rewrite length_append in H. simpl in H. lia.
Qed.

Lemma fprintlns_app (l1 l2 : list string) :
  fprintlns (l1 ++ l2) = fprintlns l1 +:+ fprintlns l2.
Proof.
  induction l1 as [|e l1 IH]; simpl; [done|].
  by rewrite IH, !append_assoc.
Qed.

(** ** The monad *)

Lemma bind_Ok {S A B} (m : M S A) (k : A → M S B) s s1 a :
  m s = (s1, Ok a) → bind m k s = k a s1.
Proof. intros H. unfold bind. by rewrite H. Qed.

Lemma bind_Ok_inv {S A B} (m : M S A) (k : A → M S B) s s' b :
  bind m k s = (s', Ok b) → ∃ s1 a, m s = (s1, Ok a) ∧ k a s1 = (s', Ok b).
Proof.
  unfold bind. destruct (m s) as [s1 [a|e|msg|]]; intros H; try discriminate.
  by exists s1, a.
Qed.

Lemma bind_Err {S A B} (m : M S A) (k : A → M S B) s s1 e :
  m s = (s1, Err e) → bind m k s = (s1, Err e).
Proof. intros H. unfold bind. by rewrite H. Qed.

Lemma bind_Panic {S A B} (m : M S A) (k : A → M S B) s s1 msg :
  m s = (s1, Panic msg) → bind m k s = (s1, Panic msg).
Proof. intros H. unfold bind. by rewrite H. Qed.

Lemma index_Some {S A} (l : list A) i x (s : S) :
  l !! i = Some x → index l i s = (s, Ok x).
Proof. intros H. unfold index. by rewrite H. Qed.

Lemma index_Ok_inv {S A} (l : list A) i x (s s' : S) :
  index l i s = (s', Ok x) → s' = s ∧ l !! i = Some x.
Proof.
  unfold index. destruct (l !! i); unfold ret, panic; intros H; by simplify_eq.
Qed.

(** ** The two writing loops *)

Lemma fmt_Fprintln_Some f a (fs : gmap string string) data :
  fs !! f = Some data →
  fmt_Fprintln f a fs = (<[f := data +:+ a +:+ String LF ""]> fs, Ok tt).
Proof. intros H. unfold fmt_Fprintln. by rewrite H. Qed.

(** A counted loop that prints [l[g i]] for each of its indices appends these
    entries, in the order of the indices. *)
Lemma for_range_Fprintln (l : list string) (g : nat → nat) (f : string)
    (indices : list nat) (entries : list string) :
  Forall2 (λ i e, l !! g i = Some e) indices entries →
  ∀ (fs : gmap string string) data, fs !! f = Some data →
  for_range indices (λ i, let* id := index l (g i) in fmt_Fprintln f id) fs
  = (<[f := data +:+ fprintlns entries]> fs, Ok tt).
Proof.
  induction 1 as [|i e indices entries Hi _ IH]; intros fs data Hf; simpl.
  - unfold ret. by rewrite append_nil_r, insert_id.
  - erewrite bind_Ok; last first.
    { erewrite bind_Ok by (by apply index_Some).
      by apply fmt_Fprintln_Some. }
    rewrite (IH _ (data +:+ e +:+ String LF "")) by apply lookup_insert_eq.
    by rewrite insert_insert_eq, !append_assoc.
Qed.

Lemma Forall2_seq_drop {A} (l : list A) (i : nat) :
  Forall2 (λ j x, l !! j = Some x) (seq i (length l - i)) (drop i l).
Proof.
  apply Forall2_same_length_lookup_2.
  - rewrite length_seq, length_drop. done.
  - intros k j x [-> Hk]%lookup_seq Hx. by rewrite lookup_drop in Hx.
Qed.

(** The indices [length - 1 - i] for [i] from [1] read the list without its
    last element, backwards. *)
Lemma Forall2_seq_reverse {A} (l : list A) (top : A) :
  Forall2 (λ i x, (l ++ [top]) !! (length (l ++ [top]) - 1 - i) = Some x)
          (seq 1 (length (l ++ [top]) - 1)) (reverse l).
Proof.
  rewrite length_app. simpl.
  replace (length l + 1 - 1) with (length l) by lia.
  apply Forall2_same_length_lookup_2.
  - by rewrite length_seq, length_reverse.
  - intros k j x [-> Hk]%lookup_seq Hx.
    rewrite reverse_lookup in Hx by done.
    rewrite lookup_app_l by lia.
    rewrite <- Hx. f_equal; lia.
Qed.

(** The parent loop writes the entries after the first occurrence of
    [composeS[0]] in what is left of the chain from index [i] on, and the
    fuel [compose] gives it is enough. *)
Lemma write_parents_spec (replaceF : string) (ids composeS : list string)
    (key : string) :
  composeS !! 0 = Some key →
  ∀ fuel i (fs : gmap string string) data,
  length ids - i < fuel →
  fs !! replaceF = Some data →
  write_parents fuel replaceF ids composeS (length ids) i fs
  = (<[replaceF := data +:+ fprintlns (after_first key (drop i ids))]> fs, Ok tt).
Proof.
  intros Hkey. induction fuel as [|fuel IH]; intros i fs data Hfuel Hf; [lia|].
  simpl. destruct (Nat.ltb_spec i (length ids)) as [Hi|Hi].
  - destruct (lookup_lt_is_Some_2 ids i Hi) as [id Hid].
    erewrite bind_Ok by (by apply index_Some).
    erewrite bind_Ok by (by apply index_Some).
    rewrite (drop_S _ _ _ Hid). simpl.
    case_bool_decide as Hne.
    + rewrite bool_decide_false by done.
      replace (i + 1) with (S i) by lia. apply IH; [lia | done].
    + rewrite bool_decide_true by (by destruct (decide (id = key)); [|done]).
      erewrite bind_Ok; last first.
      { apply for_range_Fprintln with (g := λ j, j) (entries := drop (S i) ids);
          [|done].
        replace (i + 1) with (S i) by lia. apply Forall2_seq_drop. }
      rewrite (IH _ _ (data +:+ fprintlns (drop (S i) ids)))
        by (lia || apply lookup_insert_eq).
      rewrite (drop_ge _ (_ + 1)) by lia. simpl.
      by rewrite append_nil_r, insert_insert_eq.
  - rewrite drop_ge by lia. simpl. unfold ret.
    by rewrite append_nil_r, insert_id.
Qed.

(** ** Reading: [os.Open], [getParentIds], the resolution loop *)

Lemma os_Open_inv name (fs fs' : gmap string string) r :
  os_Open name fs = (fs', r) →
  fs' = fs ∧
  match fs !! name with
  | Some data => r = Ok data
  | None => r = Err (PathError "open" name)
  end.
Proof. unfold os_Open. destruct (fs !! name); intros; by simplify_eq. Qed.

Lemma getParentIds_Some layersP (fs : gmap string string) D :
  fs !! layersP = Some D → (bufio_Scan D).2 = None →
  getParentIds layersP fs = (fs, Ok (parse_chain D)).
Proof.
  intros HD Herr. unfold getParentIds, parse_chain.
  erewrite bind_Ok by (unfold os_Open; by rewrite HD).
  destruct (bufio_Scan D) as [tokens err]. simpl in *. by subst err.
Qed.

Lemma getParentIds_inv layersP (fs fs' : gmap string string) r :
  getParentIds layersP fs = (fs', r) →
  fs' = fs ∧
  ∀ ids, r = Ok ids →
    ∃ D, fs !! layersP = Some D ∧ (bufio_Scan D).2 = None ∧ ids = parse_chain D.
Proof.
  unfold getParentIds, bind, parse_chain.
  destruct (os_Open layersP fs) as [fs1 r1] eqn:Hopen.
  apply os_Open_inv in Hopen as [-> Hopen].
  destruct (fs !! layersP) as [D|]; subst r1.
  - destruct (bufio_Scan D) as [tokens [e|]] eqn:Hscan; unfold throw, ret;
      intros; simplify_eq; (split; [done|]); intros ids ?; simplify_eq.
    exists D. by rewrite Hscan.
  - intros; simplify_eq. split; [done|]. intros ids ?; simplify_eq.
Qed.

Lemma resolve_Some functionM (fs : gmap string string) paras ids :
  Forall2 (λ para id, cache_id fs functionM para = Some id) paras ids →
  ∀ composeS, resolve functionM paras composeS fs = (fs, Ok (composeS ++ ids)).
Proof.
  induction 1 as [|para id paras ids Hid _ IH]; intros composeS; simpl.
  - unfold ret. by rewrite app_nil_r.
  - unfold cache_id in Hid.
    destruct (fs !! layerdbP (map_get functionM para)) as [fd|] eqn:Hfd;
      simplify_eq/=.
    erewrite bind_Ok by (unfold os_Open; by rewrite Hfd).
    rewrite IH. by rewrite <- app_assoc.
Qed.

(** The resolution loop touches no file; it ends in a list with one CacheID
    per name, or in the error of the first [cache-id] file that is missing. *)
Lemma resolve_inv functionM paras :
  ∀ composeS (fs fs' : gmap string string) r,
  resolve functionM paras composeS fs = (fs', r) →
  fs' = fs ∧
  ((∃ ids, Forall2 (λ para id, cache_id fs functionM para = Some id) paras ids
           ∧ r = Ok (composeS ++ ids)) ∨
   (∃ para, para ∈ paras ∧ cache_id fs functionM para = None ∧
            r = Err (PathError "open" (layerdbP (map_get functionM para))))).
Proof.
  induction paras as [|para paras IH]; intros composeS fs fs' r; simpl.
  - unfold ret. intros ?; simplify_eq. split; [done|]. left. exists [].
    by rewrite app_nil_r.
  - unfold bind. destruct (os_Open _ fs) as [fs1 r1] eqn:Hopen.
    apply os_Open_inv in Hopen as [-> Hopen].
    destruct (fs !! layerdbP (map_get functionM para)) as [fd|] eqn:Hfd;
      subst r1.
    + intros [-> Hr]%IH. split; [done|].
      destruct Hr as [(ids & Hids & ->)|(para' & Hin & Hnone & ->)].
      * left. exists (strings_Replace fd LF :: ids). split.
        -- constructor; [|done]. unfold cache_id. by rewrite Hfd.
        -- by rewrite <- app_assoc.
      * right. exists para'. split; [by right|done].
    + intros ?; simplify_eq. split; [done|]. right. exists para.
      split; [by left|]. split; [|done]. unfold cache_id. by rewrite Hfd.
Qed.

(** ** [compose], characterised *)

Lemma resolves_Forall2 fs paras functionM funcs top D :
  resolves fs paras functionM funcs top D →
  Forall2 (λ para id, cache_id fs functionM para = Some id)
          (paras ++ ["chainID"]) (funcs ++ [top]).
Proof.
  intros (_ & Hfuncs%mapM_Some & Htop & _).
  apply Forall2_app; [done|]. by constructor.
Qed.

Lemma split_point_lookup funcs top :
  (funcs ++ [top]) !! 0 = Some (split_point funcs top).
Proof. by destruct funcs. Qed.

(** When the request resolves, [compose] succeeds: it returns the path keyed
    by the reserved layer's CacheID, the original content is at the backup
    path, and the descriptor holds the function CacheIDs backwards followed
    by the chain entries after the split point. *)
Lemma compose_Ok fs paras functionM funcs top D :
  resolves fs paras functionM funcs top D →
  compose paras fs =
    (swapped fs (layersP_of top) D
       (fprintlns (reverse funcs ++
                   after_first (split_point funcs top) (parse_chain D))),
     Ok (layersP_of top)).
Proof.
  intros Hres. pose proof (resolves_Forall2 _ _ _ _ _ _ Hres) as Hall.
  destruct Hres as ((para0 & manifestF & Hp0 & HmF & Hload) & _ & _ & HD & Herr).
  unfold compose.
  erewrite bind_Ok by (by apply index_Some).
  erewrite bind_Ok by (unfold os_Open; by rewrite HmF).
  erewrite bind_Ok by (unfold lift_outcome; by rewrite Hload).
  erewrite bind_Ok by (by apply resolve_Some).
  rewrite (app_nil_l (funcs ++ [top])).
  erewrite bind_Ok; last first.
  { apply index_Some.
    replace (length (funcs ++ [top]) - 1) with (length funcs)
      by (rewrite length_app; simpl; lia).
    by apply list_lookup_middle. }
  erewrite bind_Ok by (by apply getParentIds_Some).
  erewrite bind_Ok by (unfold os_Rename; by rewrite HD).
  erewrite bind_Ok by done.
  erewrite bind_Ok; last first.
  { apply for_range_Fprintln with (entries := reverse funcs).
    - apply Forall2_seq_reverse.
    - apply lookup_insert_eq. }
  erewrite bind_Ok; last first.
  { apply write_parents_spec with (key := split_point funcs top).
    - apply split_point_lookup.
    - lia.
    - apply lookup_insert_eq. }
  unfold ret, swapped. rewrite drop_0, !insert_insert_eq, fprintlns_app.
  by rewrite strings_Join_backup.
Qed.

(** Conversely, a [compose] that succeeds has resolved its request, and its
    result and the files it leaves are the ones above. *)
Lemma compose_Ok_inv paras (fs fs' : gmap string string) layersP :
  compose paras fs = (fs', Ok layersP) →
  ∃ functionM funcs top D,
    resolves fs paras functionM funcs top D ∧
    layersP = layersP_of top ∧
    fs' = swapped fs layersP D
            (fprintlns (reverse funcs ++
                        after_first (split_point funcs top) (parse_chain D))).
Proof.
  intros H.
  assert (∃ functionM funcs top D, resolves fs paras functionM funcs top D)
    as (functionM & funcs & top & D & Hres).
  { unfold compose in H.
    apply bind_Ok_inv in H as (fs1 & para0 & [-> Hp0]%index_Ok_inv & H).
    apply bind_Ok_inv in H as (fs2 & manifestF & Hopen & H).
    apply os_Open_inv in Hopen as [-> Hopen].
    destruct (fs !! manifestP para0) as [data|] eqn:HmF; simplify_eq.
    apply bind_Ok_inv in H as (fs3 & functionM & Hload & H).
    unfold lift_outcome in Hload. simplify_eq.
    apply bind_Ok_inv in H as (fs4 & composeS & Hres & H).
    apply resolve_inv in Hres
      as [-> [(ids & Hall & Heq)|(? & ? & ? & ?)]]; [|done].
    rewrite app_nil_l in Heq. simplify_eq.
    apply Forall2_app_inv_l in Hall as (funcs & tops & Hfuncs & Htop & ->).
    inversion Htop as [|? top ? tops' Ht Hnil]; subst.
    inversion Hnil; subst.
    apply bind_Ok_inv in H as (fs5 & top' & [-> Htop']%index_Ok_inv & H).
    replace (length (funcs ++ [top]) - 1) with (length funcs) in Htop'
      by (rewrite length_app; simpl; lia).
    rewrite list_lookup_middle in Htop' by done. simplify_eq.
    apply bind_Ok_inv in H as (fs6 & chain & Hget & H).
    apply getParentIds_inv in Hget as [-> Hget].
    destruct (Hget _ eq_refl) as (D & HD & Herr & ->).
    exists functionM, funcs, top', D. split; [by eauto|].
    split; [by apply mapM_Some|]. done. }
  rewrite (compose_Ok _ _ _ _ _ _ Hres) in H. simplify_eq.
  by exists functionM, funcs, top, D.
Qed.

(** ** The library models on small inputs *)

Example path_Join_cache_id :
  layerdbP "sha-A" = "/var/lib/docker/image/aufs/layerdb/sha256/sha-A/cache-id".
Proof. reflexivity. Qed.

(** The empty digest, which a name without a manifest record gets, leads to
    a file directly under the digest directory. *)
Example path_Join_empty_digest :
  layerdbP "" = "/var/lib/docker/image/aufs/layerdb/sha256/cache-id".
Proof. reflexivity. Qed.

Example path_Clean_dots :
  path_Clean "a/../../b/./c//d/.." = "../b/c" ∧ path_Clean "/../a/b/../.." = "/".
Proof. split; reflexivity. Qed.

Example bufio_Scan_lines :
  bufio_Scan ("a" +:+ String CR (String LF (String LF "b")))
  = (["a"; ""; "b"], None).
Proof. reflexivity. Qed.

Example strings_Split_image :
  strings_Split "base_f1_f2" "_" = ["base"; "f1"; "f2"] ∧
  strings_Split "ubuntu" "_" = ["ubuntu"].
Proof. split; reflexivity. Qed.

(** Only the first occurrence of the key splits a chain. *)
Example after_first_twice :
  after_first "k" ["a"; "k"; "b"; "k"; "c"] = ["b"; "k"; "c"].
Proof. reflexivity. Qed.

(** ** The running example *)

Lemma example_resolves :
  resolves example_fs ["f1"; "f2"] example_functionM
    ["ca1"; "ca2"] "top" (fprintlns ["ca1"; "base"; "p1"; "p2"]).
Proof.
  split; [exists "f1", example_manifest|]; repeat split; vm_compute; reflexivity.
Defined.

Lemma example_compose :
  compose ["f1"; "f2"] example_fs = (example_composed, Ok (layersP_of "top")).
Proof.
  rewrite (compose_Ok _ _ _ _ _ _ example_resolves).
  unfold example_composed. by f_equal.
Defined.

(** ** The composed descriptor *)

Lemma after_first_split (key : string) (before after : list string) :
  key ∉ before → after_first key (before ++ key :: after) = after.
Proof.
  induction before as [|e before IH]; intros Hnotin; simpl.
  - by rewrite bool_decide_true.
  - apply not_elem_of_cons in Hnotin as [Hne Hnotin].
    rewrite bool_decide_false by done. by apply IH.
Qed.

Lemma after_first_absent (key : string) (chain : list string) :
  key ∉ chain → after_first key chain = [].
Proof.
  induction chain as [|e chain IH]; intros Hnotin; simpl; [done|].
  apply not_elem_of_cons in Hnotin as [Hne Hnotin].
  rewrite bool_decide_false by done. by apply IH.
Qed.

Lemma swapped_lookup fs layersP D content :
  swapped fs layersP D content !! layersP = Some content.
Proof. apply lookup_insert_eq. Qed.

Lemma swapped_lookup_backup fs layersP D content :
  swapped fs layersP D content !! backupP layersP = Some D.
Proof.
  unfold swapped. rewrite lookup_insert_ne by (symmetry; apply backupP_ne).
  apply lookup_insert_eq.
Qed.

(** C5. Whenever [compose] returns a path, the descriptor at that path
    starts with the CacheIDs resolved for the names of the request, in the
    reverse of the order of the request, one per line; the CacheID of the
    reserved top layer, last in the synthesized list, is not among them; what
    follows is what the parent loop took from the original chain. *)
Theorem compose_prefix_is_reversed_request paras
    (fs fs' : gmap string string) layersP :
  compose paras fs = (fs', Ok layersP) →
  ∃ functionM funcs top D,
    resolves fs paras functionM funcs top D ∧
    fs' !! layersP =
      Some (fprintlns (reverse funcs) +:+
            fprintlns (after_first (split_point funcs top) (parse_chain D))).
Proof.
  intros (functionM & funcs & top & D & Hres & -> & ->)%compose_Ok_inv.
  exists functionM, funcs, top, D. split; [done|].
  by rewrite swapped_lookup, fprintlns_app.
Qed.

Lemma compose_prefix_is_reversed_request_witness :
  ∃ functionM funcs top D,
    resolves example_fs ["f1"; "f2"] functionM funcs top D ∧
    example_composed !! layersP_of "top" =
      Some (fprintlns (reverse funcs) +:+
            fprintlns (after_first (split_point funcs top) (parse_chain D))).
Proof.
  apply (compose_prefix_is_reversed_request ["f1"; "f2"] example_fs).
  exact example_compose.
Defined.

(** C4, as the code has it. The chain is split at [composeS[0]], the CacheID
    resolved for the first name of the request; [compose] is given no CacheID
    of a base image. When the request resolves and this split point occurs in
    the original chain, [compose] succeeds and the descriptor ends with the
    entries of the original chain that stand strictly after the first
    occurrence of the split point, one per line, in their order; later
    occurrences play no part. *)
Theorem compose_suffix_after_first_split_point
    (fs : gmap string string) paras functionM funcs top D before after :
  resolves fs paras functionM funcs top D →
  parse_chain D = before ++ split_point funcs top :: after →
  split_point funcs top ∉ before →
  ∃ fs', compose paras fs = (fs', Ok (layersP_of top)) ∧
         fs' !! layersP_of top =
           Some (fprintlns (reverse funcs) +:+ fprintlns after).
Proof.
  intros Hres Hchain Hfirst. eexists.
  split; [apply (compose_Ok _ _ _ _ _ _ Hres)|].
  by rewrite swapped_lookup, fprintlns_app, Hchain, after_first_split.
Qed.

Lemma compose_suffix_after_first_split_point_witness :
  ∃ fs', compose ["f1"; "f2"] example_fs = (fs', Ok (layersP_of "top")) ∧
         fs' !! layersP_of "top" =
           Some (fprintlns (reverse ["ca1"; "ca2"]) +:+
                 fprintlns ["base"; "p1"; "p2"]).
Proof.
  apply (compose_suffix_after_first_split_point example_fs ["f1"; "f2"]
           example_functionM ["ca1"; "ca2"] "top"
           (fprintlns ["ca1"; "base"; "p1"; "p2"])
           [] ["base"; "p1"; "p2"]).
  - exact example_resolves.
  - vm_compute. reflexivity.
  - vm_compute. apply not_elem_of_nil.
Defined.

(** ** Backup and restore *)

Lemma restore_swapped (fs : gmap string string) layersP D content :
  fs !! layersP = Some D →
  restore layersP (swapped fs layersP D content)
  = (delete (backupP layersP) fs, Ok tt).
Proof.
  intros HD. pose proof (backupP_ne layersP) as Hne. unfold restore.
  erewrite bind_Ok by (unfold os_Remove; by rewrite swapped_lookup).
  rewrite strings_Join_backup. unfold os_Rename.
  rewrite lookup_delete_ne, swapped_lookup_backup by done.
  f_equal. unfold swapped. apply map_eq. intros k.
  destruct (decide (k = layersP)) as [->|Hk1]; [by simplify_map_eq|].
  destruct (decide (k = backupP layersP)) as [->|Hk2]; by simplify_map_eq.
Qed.

(** C2. Whenever [compose] returns a path, the descriptor at that path had
    a content [D] before, and [restore] on the returned path succeeds and
    leaves the files as they were before [compose], the descriptor holding
    [D] again byte for byte; only a backup file that was there before
    [compose] is gone. *)
Theorem compose_restore_roundtrip paras (fs fs1 : gmap string string) layersP :
  compose paras fs = (fs1, Ok layersP) →
  ∃ D fs2, fs !! layersP = Some D ∧
           restore layersP fs1 = (fs2, Ok tt) ∧
           fs2 !! layersP = Some D ∧
           fs2 = delete (backupP layersP) fs.
Proof.
  intros (functionM & funcs & top & D & Hres & -> & ->)%compose_Ok_inv.
  destruct Hres as (_ & _ & _ & HD & _).
  exists D, (delete (backupP (layersP_of top)) fs).
  split; [done|]. split; [by apply restore_swapped|]. split; [|done].
  by rewrite lookup_delete_ne by apply backupP_ne.
Qed.

Lemma compose_restore_roundtrip_witness :
  ∃ D fs2, example_fs !! layersP_of "top" = Some D ∧
           restore (layersP_of "top") example_composed = (fs2, Ok tt) ∧
           fs2 !! layersP_of "top" = Some D ∧
           fs2 = delete (backupP (layersP_of "top")) example_fs.
Proof.
  apply (compose_restore_roundtrip ["f1"; "f2"] example_fs).
  exact example_compose.
Defined.

(** ** The split point that is not there *)

(** C1, as the code has it. When the request resolves and the split point
    does not occur in the original chain, [compose] still succeeds: the
    original goes to the backup path and the descriptor is written with the
    reversed function CacheIDs alone, no entry of the original chain after
    them. *)
Theorem compose_without_split_point_succeeds
    (fs : gmap string string) paras functionM funcs top D :
  resolves fs paras functionM funcs top D →
  split_point funcs top ∉ parse_chain D →
  compose paras fs =
    (swapped fs (layersP_of top) D (fprintlns (reverse funcs)),
     Ok (layersP_of top)).
Proof.
  intros Hres Habsent. rewrite (compose_Ok _ _ _ _ _ _ Hres).
  by rewrite after_first_absent, app_nil_r.
Qed.

Lemma no_split_resolves :
  resolves no_split_fs ["f1"; "f2"] example_functionM
    ["ca1"; "ca2"] "top" (fprintlns ["base"; "p1"; "p2"]).
Proof.
  split; [exists "f1", example_manifest|]; repeat split; vm_compute; reflexivity.
Defined.

Lemma no_split_absent :
  split_point ["ca1"; "ca2"] "top" ∉ parse_chain (fprintlns ["base"; "p1"; "p2"]).
Proof. rewrite list_elem_of_In. vm_compute. intuition discriminate. Defined.

Lemma compose_without_split_point_succeeds_witness :
  compose ["f1"; "f2"] no_split_fs =
    (swapped no_split_fs (layersP_of "top") (fprintlns ["base"; "p1"; "p2"])
       (fprintlns (reverse ["ca1"; "ca2"])),
     Ok (layersP_of "top")).
Proof.
  apply (compose_without_split_point_succeeds no_split_fs ["f1"; "f2"]
           example_functionM ["ca1"; "ca2"] "top"
           (fprintlns ["base"; "p1"; "p2"])).
  - exact no_split_resolves.
  - exact no_split_absent.
Defined.

(** The claim C1 fails on [no_split_fs]: the request resolves, its split
    point [ca1] is not in the chain [base, p1, p2], yet [compose] returns a
    path and no error, and the descriptor no longer holds what it held. *)
Lemma compose_without_split_point_counterexample :
  resolves no_split_fs ["f1"; "f2"] example_functionM
    ["ca1"; "ca2"] "top" (fprintlns ["base"; "p1"; "p2"]) ∧
  split_point ["ca1"; "ca2"] "top" = "ca1" ∧
  parse_chain (fprintlns ["base"; "p1"; "p2"]) = ["base"; "p1"; "p2"] ∧
  ∃ fs', compose ["f1"; "f2"] no_split_fs = (fs', Ok (layersP_of "top")) ∧
         fs' !! layersP_of "top" = Some (fprintlns ["ca2"; "ca1"]) ∧
         fs' !! layersP_of "top" ≠ no_split_fs !! layersP_of "top".
Proof.
  split; [exact no_split_resolves|]. split; [reflexivity|].
  split; [vm_compute; reflexivity|].
  eexists. split; [apply (compose_Ok _ _ _ _ _ _ no_split_resolves)|].
  rewrite swapped_lookup. split; [f_equal; vm_compute; reflexivity|].
  destruct no_split_resolves as (_ & _ & _ & -> & _).
  intros Heq. vm_compute in Heq. discriminate.
Qed.

(** The claim C4 fails on [no_split_fs], the files of a request for the image
    [base_f1_f2] whose base image has the CacheID [base]. [base] occurs in the
    original chain [base, p1, p2], and the entries strictly after its first
    occurrence are [p1, p2]. [compose] succeeds, and the descriptor is
    [ca2, ca1] and nothing more: no entry of the original chain follows the
    prefix, because the chain is searched for [ca1], the CacheID of the first
    name, and not for [base]. *)
Lemma compose_split_at_base_counterexample :
  resolves no_split_fs ["f1"; "f2"] example_functionM
    ["ca1"; "ca2"] "top" (fprintlns ["base"; "p1"; "p2"]) ∧
  "base" ∈ parse_chain (fprintlns ["base"; "p1"; "p2"]) ∧
  after_first "base" (parse_chain (fprintlns ["base"; "p1"; "p2"]))
    = ["p1"; "p2"] ∧
  ∃ fs', compose ["f1"; "f2"] no_split_fs = (fs', Ok (layersP_of "top")) ∧
         fs' !! layersP_of "top" = Some (fprintlns ["ca2"; "ca1"]) ∧
         fs' !! layersP_of "top" ≠
           Some (fprintlns ["ca2"; "ca1"] +:+ fprintlns ["p1"; "p2"]).
Proof.
  split; [exact no_split_resolves|].
  split; [rewrite list_elem_of_In; vm_compute; tauto|].
  split; [vm_compute; reflexivity|].
  eexists. split; [apply (compose_Ok _ _ _ _ _ _ no_split_resolves)|].
  rewrite swapped_lookup.
  split; [f_equal; vm_compute; reflexivity|].
  intros Heq. vm_compute in Heq. discriminate.
Qed.

(** ** The backup that is already there *)

(** C8, as the code has it. When the request resolves and a file already
    stands at the backup path, [compose] does not fail: [os.Rename] replaces
    that file, and the backup path holds the content the descriptor had. *)
Theorem compose_replaces_existing_backup
    (fs : gmap string string) paras functionM funcs top D stale :
  resolves fs paras functionM funcs top D →
  fs !! backupP (layersP_of top) = Some stale →
  ∃ fs', compose paras fs = (fs', Ok (layersP_of top)) ∧
         fs' !! backupP (layersP_of top) = Some D.
Proof.
  intros Hres _. eexists. split; [apply (compose_Ok _ _ _ _ _ _ Hres)|].
  apply swapped_lookup_backup.
Qed.

Lemma stale_backup_resolves :
  resolves stale_backup_fs ["f1"; "f2"] example_functionM
    ["ca1"; "ca2"] "top" (fprintlns ["ca1"; "base"; "p1"; "p2"]).
Proof.
  split; [exists "f1", example_manifest|]; repeat split; vm_compute; reflexivity.
Defined.

Lemma stale_backup_lookup :
  stale_backup_fs !! backupP (layersP_of "top") = Some (fprintlns ["stale"]).
Proof. apply lookup_insert_eq. Defined.

Lemma compose_replaces_existing_backup_witness :
  ∃ fs', compose ["f1"; "f2"] stale_backup_fs = (fs', Ok (layersP_of "top")) ∧
         fs' !! backupP (layersP_of "top")
         = Some (fprintlns ["ca1"; "base"; "p1"; "p2"]).
Proof.
  apply (compose_replaces_existing_backup stale_backup_fs ["f1"; "f2"]
           example_functionM ["ca1"; "ca2"] "top"
           (fprintlns ["ca1"; "base"; "p1"; "p2"]) (fprintlns ["stale"])).
  - exact stale_backup_resolves.
  - exact stale_backup_lookup.
Defined.

(** The claim C8 fails on [stale_backup_fs]: a backup is outstanding, and
    [compose] returns no error and overwrites it. *)
Lemma compose_existing_backup_counterexample :
  stale_backup_fs !! backupP (layersP_of "top") = Some (fprintlns ["stale"]) ∧
  ∃ fs', compose ["f1"; "f2"] stale_backup_fs = (fs', Ok (layersP_of "top")) ∧
         fs' !! backupP (layersP_of "top")
         = Some (fprintlns ["ca1"; "base"; "p1"; "p2"]).
Proof.
  split; [exact stale_backup_lookup|].
  eexists. split; [apply (compose_Ok _ _ _ _ _ _ stale_backup_resolves)|].
  apply swapped_lookup_backup.
Qed.

(** ** The reserved top layer *)

(** The map the manifest loop builds has a key exactly when the map had it
    before or some line is a record for it. *)
Lemma load_manifest_lookup (name : string) (tokens : list string) :
  ∀ m functionM : gmap string string,
  load_manifest tokens m = Ok functionM →
  is_Some (functionM !! name) ↔
  is_Some (m !! name) ∨ has_record tokens name = true.
Proof.
  induction tokens as [|t tokens IH]; intros m functionM Hload; simpl in *.
  - simplify_eq. split; [by left|]. by intros [?|?].
  - case_bool_decide as Ht.
    + destruct (strings_Split t ",") as [|m0 [|m1 rest]]; try discriminate.
      rewrite (IH _ _ Hload), lookup_insert_is_Some, orb_true_iff.
      rewrite bool_decide_eq_true.
      destruct (decide (m0 = name)); tauto.
    + assert (t = "") as -> by (by destruct (decide (t = ""))).
      simpl. by apply IH.
Qed.

(** C10, as the code has it. Whenever [compose] returns a path: the
    manifest named by the first name of the request loaded; the names of the
    request followed by the literal name [chainID] all went through the same
    [cache_id] step, the last result being the CacheID [top] of the reserved
    layer; the path returned is the descriptor path keyed by [top], the
    content it had is now at its backup path and the path itself holds the
    new descriptor; and either the manifest has a [chainID] record or a
    [cache-id] file stands where the empty digest leads. *)
Theorem compose_top_layer_by_chainID paras (fs fs' : gmap string string) layersP :
  compose paras fs = (fs', Ok layersP) →
  ∃ para0 manifestF functionM funcs top D,
    paras !! 0 = Some para0 ∧
    fs !! manifestP para0 = Some manifestF ∧
    load_manifest (bufio_Scan manifestF).1 ∅ = Ok functionM ∧
    mapM (cache_id fs functionM) (paras ++ ["chainID"]) = Some (funcs ++ [top]) ∧
    length funcs = length paras ∧
    layersP = layersP_of top ∧
    fs !! layersP = Some D ∧
    fs' !! backupP layersP = Some D ∧
    fs' !! layersP =
      Some (fprintlns (reverse funcs ++
                       after_first (split_point funcs top) (parse_chain D))) ∧
    (has_record (bufio_Scan manifestF).1 "chainID" = true ∨
     is_Some (fs !! layerdbP "")).
Proof.
  intros (functionM & funcs & top & D & Hres & -> & ->)%compose_Ok_inv.
  pose proof (resolves_Forall2 _ _ _ _ _ _ Hres) as Hall.
  destruct Hres
    as ((para0 & manifestF & Hp0 & HmF & Hload) & Hfuncs & Htop & HD & _).
  exists para0, manifestF, functionM, funcs, top, D.
  repeat split; try done.
  - by apply mapM_Some.
  - apply mapM_Some in Hfuncs. symmetry. by eapply Forall2_length.
  - apply swapped_lookup_backup.
  - apply swapped_lookup.
  - unfold cache_id, map_get in Htop.
    destruct (functionM !! "chainID") as [digest|] eqn:Hd; simpl in Htop.
    + left.
      assert (is_Some (functionM !! "chainID")) as Hs by (rewrite Hd; eauto).
      apply (load_manifest_lookup "chainID" _ _ _ Hload) in Hs as [Hs|Hs];
        [|done].
      rewrite lookup_empty in Hs. by destruct Hs.
    + right. by destruct (fs !! layerdbP "").
Qed.

Lemma compose_top_layer_by_chainID_witness :
  ∃ para0 manifestF functionM funcs top D,
    ["f1"; "f2"] !! 0 = Some para0 ∧
    example_fs !! manifestP para0 = Some manifestF ∧
    load_manifest (bufio_Scan manifestF).1 ∅ = Ok functionM ∧
    mapM (cache_id example_fs functionM) (["f1"; "f2"] ++ ["chainID"])
    = Some (funcs ++ [top]) ∧
    length funcs = length ["f1"; "f2"] ∧
    layersP_of "top" = layersP_of top ∧
    example_fs !! layersP_of "top" = Some D ∧
    example_composed !! backupP (layersP_of "top") = Some D ∧
    example_composed !! layersP_of "top" =
      Some (fprintlns (reverse funcs ++
                       after_first (split_point funcs top) (parse_chain D))) ∧
    (has_record (bufio_Scan manifestF).1 "chainID" = true ∨
     is_Some (example_fs !! layerdbP "")).
Proof.
  apply (compose_top_layer_by_chainID ["f1"; "f2"] example_fs).
  exact example_compose.
Defined.

Lemma no_chainID_resolves :
  resolves no_chainID_fs ["f1"; "f2"] no_chainID_functionM
    ["ca1"; "ca2"] "top" (fprintlns ["ca1"; "base"; "p1"; "p2"]).
Proof.
  split; [exists "f1", (fprintlns ["f1,sha-A"; "f2,sha-B"])|];
    repeat split; vm_compute; reflexivity.
Defined.

(** The last part of the claim C10 fails on [no_chainID_fs]: no line of the
    manifest is a [chainID] record, and [compose] returns a path: the
    reserved name gets the empty digest, whose [cache-id] path is the file
    directly under the digest directory. *)
Lemma compose_without_chainID_record_counterexample :
  no_chainID_fs !! manifestP "f1" = Some (fprintlns ["f1,sha-A"; "f2,sha-B"]) ∧
  has_record (bufio_Scan (fprintlns ["f1,sha-A"; "f2,sha-B"])).1 "chainID"
  = false ∧
  ∃ fs', compose ["f1"; "f2"] no_chainID_fs = (fs', Ok (layersP_of "top")).
Proof.
  split; [vm_compute; reflexivity|]. split; [vm_compute; reflexivity|].
  eexists. apply (compose_Ok _ _ _ _ _ _ no_chainID_resolves).
Qed.

(** ** The manifest line without a comma *)

(** A line that is not empty and has no comma makes the manifest loop index
    past the end of [m], whatever comes after it, unless an earlier line
    already did. *)
Lemma load_manifest_no_comma (before after : list string) (t : string) :
  t ≠ "" → strings_Split t "," = [t] →
  ∀ m : gmap string string,
  load_manifest (before ++ t :: after) m = Panic "index out of range".
Proof.
  intros Ht Hsplit. induction before as [|t' before IH]; intros m; simpl.
  - by rewrite bool_decide_true, Hsplit.
  - case_bool_decide; [|by apply IH].
    destruct (strings_Split t' ",") as [|m0 [|m1 rest]]; [done..|]. by apply IH.
Qed.

(** A panic of the manifest loop is the result of [compose], and no file has
    been changed by then. *)
Lemma compose_manifest_panic paras (fs : gmap string string) para0 manifestF msg :
  paras !! 0 = Some para0 →
  fs !! manifestP para0 = Some manifestF →
  load_manifest (bufio_Scan manifestF).1 ∅ = Panic msg →
  compose paras fs = (fs, Panic msg).
Proof.
  intros Hp0 HmF Hload. unfold compose.
  erewrite bind_Ok by (by apply index_Some).
  erewrite bind_Ok by (unfold os_Open; by rewrite HmF).
  apply bind_Panic. unfold lift_outcome. by rewrite Hload.
Qed.

(** C7, at the failing input. The second line of the manifest of
    [malformed_fs] is [f2], with no comma: [compose] neither returns an error
    naming the line nor skips it, it panics. No file is changed. *)
Theorem compose_malformed_manifest_panics :
  malformed_fs !! manifestP "f1"
  = Some (fprintlns ["f1,sha-A"; "f2"; "chainID,sha-T"]) ∧
  bufio_Scan (fprintlns ["f1,sha-A"; "f2"; "chainID,sha-T"])
  = (["f1,sha-A"; "f2"; "chainID,sha-T"], None) ∧
  compose ["f1"; "f2"] malformed_fs
  = (malformed_fs, Panic "index out of range").
Proof.
  assert (malformed_fs !! manifestP "f1"
          = Some (fprintlns ["f1,sha-A"; "f2"; "chainID,sha-T"])) as HmF
    by apply lookup_insert_eq.
  split; [done|]. split; [vm_compute; reflexivity|].
  apply (compose_manifest_panic ["f1"; "f2"] _ "f1" _ _ eq_refl HmF).
  vm_compute. reflexivity.
Qed.

(** ** Every run of [compose] ends *)

Lemma load_manifest_cases (tokens : list string) :
  ∀ m : gmap string string,
  (∃ functionM, load_manifest tokens m = Ok functionM) ∨
  load_manifest tokens m = Panic "index out of range".
Proof.
  induction tokens as [|t tokens IH]; intros m; simpl; [by eauto|].
  case_bool_decide; [|by apply IH].
  destruct (strings_Split t ",") as [|m0 [|m1 rest]]; [by right..|]. by apply IH.
Qed.

Lemma getParentIds_cases layersP (fs : gmap string string) :
  (∃ D, fs !! layersP = Some D ∧ (bufio_Scan D).2 = None) ∨
  (∃ e, getParentIds layersP fs = (fs, Err e)).
Proof.
  destruct (fs !! layersP) as [D|] eqn:HD.
  - destruct (bufio_Scan D).2 as [e|] eqn:Herr; [|by eauto].
    right. exists e. unfold getParentIds.
    erewrite bind_Ok by (unfold os_Open; by rewrite HD).
    destruct (bufio_Scan D) as [tokens err]. simpl in Herr. by subst err.
  - right. eexists. unfold getParentIds. apply bind_Err.
    unfold os_Open. by rewrite HD.
Qed.

(** Over regular files, either the request resolves, and then [compose]
    succeeds as [compose_Ok] says, or [compose] stops before the rename, with
    an error or a panic. The fuel of the parent loop never runs out. *)
Lemma compose_outcomes paras (fs : gmap string string) :
  (∃ functionM funcs top D, resolves fs paras functionM funcs top D) ∨
  (∃ r, compose paras fs = (fs, r) ∧
        ((∃ e, r = Err e) ∨ (∃ msg, r = Panic msg))).
Proof.
  destruct (paras !! 0) as [para0|] eqn:Hp0; last first.
  { right. eexists. split; [|right; eauto].
    unfold compose. apply bind_Panic. unfold index. by rewrite Hp0. }
  destruct (fs !! manifestP para0) as [manifestF|] eqn:HmF; last first.
  { right. eexists. split; [|left; eauto].
    unfold compose. erewrite bind_Ok by (by apply index_Some).
    apply bind_Err. unfold os_Open. by rewrite HmF. }
  destruct (load_manifest_cases (bufio_Scan manifestF).1 ∅)
    as [[functionM Hload]|Hload]; last first.
  { right. eexists. split; [by eapply compose_manifest_panic|right; eauto]. }
  destruct (resolve functionM (paras ++ ["chainID"]) [] fs) as [fs1 r] eqn:Hr.
  pose proof Hr as Hr'.
  apply resolve_inv in Hr' as [-> [(ids & Hall & ->)|(para & _ & _ & ->)]];
    last first.
  { right. eexists. split; [|left; eauto]. unfold compose.
    erewrite bind_Ok by (by apply index_Some).
    erewrite bind_Ok by (unfold os_Open; by rewrite HmF).
    erewrite bind_Ok by (unfold lift_outcome; by rewrite Hload).
    apply (bind_Err _ _ _ _ _ Hr). }
  apply Forall2_app_inv_l in Hall as (funcs & tops & Hfuncs & Htop & ->).
  inversion Htop as [|? top ? tops' Ht Hnil]; subst. inversion Hnil; subst.
  destruct (getParentIds_cases (layersP_of top) fs) as [(D & HD & Herr)|[e He]].
  { left. exists functionM, funcs, top, D.
    split; [by eauto|]. split; [by apply mapM_Some|]. done. }
  right. eexists. split; [|left; eauto]. unfold compose.
  erewrite bind_Ok by (by apply index_Some).
  erewrite bind_Ok by (unfold os_Open; by rewrite HmF).
  erewrite bind_Ok by (unfold lift_outcome; by rewrite Hload).
  erewrite bind_Ok by exact Hr.
  rewrite (app_nil_l (funcs ++ [top])).
  erewrite bind_Ok; last first.
  { apply index_Some.
    replace (length (funcs ++ [top]) - 1) with (length funcs)
      by (rewrite length_app; simpl; lia).
    by apply list_lookup_middle. }
  apply (bind_Err _ _ _ _ _ He).
Qed.

Lemma compose_never_times_out paras (fs : gmap string string) :
  (compose paras fs).2 ≠ Timeout.
Proof.
  destruct (compose_outcomes paras fs)
    as [(functionM & funcs & top & D & Hres)|(r & -> & [[e ->]|[msg ->]])];
    [|done..].
  by rewrite (compose_Ok _ _ _ _ _ _ Hres).
Qed.

(** ** [create] around [compose] and [restore] *)

Lemma logged_call (d : Collaborators) (s : Step) (w : World) :
  logged (call d s) w
  = (mkWorld (d s (files w)).1 (calls w ++ [CallStep s]), Ok tt).
Proof.
  unfold logged, call, on_files. by destruct (d s (files w)) as [fs [e|]].
Qed.

(** C3, where the code departs from it. [compose] has succeeded and one of
    the steps of [create] fails: [create] returns that error at once, and
    [restore] is not among the calls it has made. The files are left as
    [compose] made them, the original descriptor at the backup path only. *)
Theorem create_step_failure_skips_restore
    (s0 : Step) Image (fs fs' : gmap string string) layersP :
  main_line s0 = true →
  Image ≠ "" →
  compose (drop 1 (strings_Split Image "_")) fs = (fs', Ok layersP) →
  ∃ cs D,
    create (fails_at s0) Image (mkWorld fs [])
    = (mkWorld fs' cs, Err (StepError s0)) ∧
    (CallRestore layersP ∉ cs) ∧
    fs !! layersP = Some D ∧
    fs' !! backupP layersP = Some D.
Proof.
  intros Hmain Himage Hcompose.
  destruct (compose_Ok_inv _ _ _ _ Hcompose)
    as (functionM & funcs & top & D & Hres & Hp & Hfs').
  assert (fs !! layersP = Some D ∧ fs' !! backupP layersP = Some D) as [HD HB].
  { subst. destruct Hres as (_ & _ & _ & HD & _).
    split; [done | apply swapped_lookup_backup]. }
  unfold create, before_defers.
  rewrite bool_decide_true by done.
  unfold between_defers, after_defers, defer_if_retErr, logged, call, on_files,
    bind, ret, throw, fails_at.
  simpl files. rewrite Hcompose.
  destruct s0; try discriminate; simpl;
    (eexists _, D; split; [reflexivity|]; split; [|done]);
    rewrite list_elem_of_In; simpl; intuition discriminate.
Qed.

Lemma create_step_failure_skips_restore_witness :
  ∃ cs D,
    create (fails_at Register) "base_f1_f2" (mkWorld example_fs [])
    = (mkWorld example_composed cs, Err (StepError Register)) ∧
    (CallRestore (layersP_of "top") ∉ cs) ∧
    example_fs !! layersP_of "top" = Some D ∧
    example_composed !! backupP (layersP_of "top") = Some D.
Proof.
  apply (create_step_failure_skips_restore Register "base_f1_f2"
           example_fs example_composed (layersP_of "top")).
  - reflexivity.
  - discriminate.
  - exact example_compose.
Defined.

(** C6, as the code has it. Every step of [create] up to and including
    [ToDiskLocking] has succeeded and [restore] fails with [e]: [create]
    returns [e] and no container, and its two deferred functions run, first
    [removeMountPoints], then [ContainerRm] on the container just created. *)
Theorem create_restore_failure_rolls_back
    (d : Collaborators) Image (w w1 w2 w3 : World) layersP
    (fs4 : gmap string string) e :
  before_defers d Image w = (w1, Ok layersP) →
  between_defers d w1 = (w2, Ok tt) →
  after_defers d w2 = (w3, Ok tt) →
  restore layersP (files w3) = (fs4, Err e) →
  ∃ w', create d Image w = (w', Err e) ∧
        calls w' = calls w3 ++ [CallRestore layersP;
                                CallStep removeMountPoints;
                                CallStep ContainerRm].
Proof.
  intros H1 H2 H3 H4. unfold create.
  erewrite bind_Ok by exact H1.
  unfold defer_if_retErr at 1.
  erewrite (bind_Ok (between_defers d)) by exact H2.
  unfold defer_if_retErr at 1.
  erewrite (bind_Ok (after_defers d)) by exact H3.
  erewrite bind_Err; last first.
  { unfold on_files. by rewrite H4. }
  erewrite bind_Ok by apply logged_call.
  unfold throw at 1.
  erewrite bind_Ok by apply logged_call.
  unfold throw. eexists. split; [reflexivity|].
  simpl. by rewrite <- !app_assoc.
Qed.

Lemma create_restore_failure_rolls_back_witness :
  ∃ w', create all_succeed "" (mkWorld ∅ [])
        = (w', Err (PathError "remove" "")) ∧
        calls w' =
          [CallStep mergeAndVerifyConfig; CallStep newContainer;
           CallStep setSecurityOptions; CallStep setRWLayer; CallStep Register;
           CallStep GetRootUIDGID; CallStep MkdirAs; CallStep setHostConfig;
           CallStep createContainerPlatformSpecificSettings;
           CallStep updateContainerNetworkSettings; CallStep ToDiskLocking]
          ++ [CallRestore ""; CallStep removeMountPoints; CallStep ContainerRm].
Proof.
  apply (create_restore_failure_rolls_back all_succeed "" (mkWorld ∅ [])
           (mkWorld ∅ [CallStep mergeAndVerifyConfig; CallStep newContainer])
           (mkWorld ∅ [CallStep mergeAndVerifyConfig; CallStep newContainer;
                       CallStep setSecurityOptions; CallStep setRWLayer;
                       CallStep Register; CallStep GetRootUIDGID;
                       CallStep MkdirAs; CallStep setHostConfig])
           (mkWorld ∅ [CallStep mergeAndVerifyConfig; CallStep newContainer;
                       CallStep setSecurityOptions; CallStep setRWLayer;
                       CallStep Register; CallStep GetRootUIDGID;
                       CallStep MkdirAs; CallStep setHostConfig;
                       CallStep createContainerPlatformSpecificSettings;
                       CallStep updateContainerNetworkSettings;
                       CallStep ToDiskLocking])
           "" ∅ (PathError "remove" "")); vm_compute; reflexivity.
Defined.

(** The claim C6 fails on the request that names no image: every step
    succeeds, [restore] is called on the empty path and fails, and [create]
    returns the error after it has had the container removed. *)
Lemma create_restore_failure_counterexample :
  create all_succeed "" (mkWorld ∅ [])
  = (mkWorld ∅
       [CallStep mergeAndVerifyConfig; CallStep newContainer;
        CallStep setSecurityOptions; CallStep setRWLayer; CallStep Register;
        CallStep GetRootUIDGID; CallStep MkdirAs; CallStep setHostConfig;
        CallStep createContainerPlatformSpecificSettings;
        CallStep updateContainerNetworkSettings; CallStep ToDiskLocking;
        CallRestore ""; CallStep removeMountPoints; CallStep ContainerRm],
     Err (PathError "remove" "")).
Proof. vm_compute. reflexivity. Qed.

(** * Further properties of the code *)

(** ** Lines written and lines read *)

Lemma strings_Split_cons_sep (s rest : string) (c : ascii) :
  contains s c = false →
  strings_Split (s +:+ String c rest) c = s :: strings_Split rest c.
Proof.
  induction s as [|a s IH]; intros Hc.
  - change ("" +:+ String c rest) with (String c rest). simpl.
    by rewrite Ascii.eqb_refl.
  - simpl in Hc. apply orb_false_iff in Hc as [Ha Hs].
    rewrite append_cons. simpl. by rewrite Ha, (IH Hs).
Qed.

Lemma strings_Split_no_sep (s : string) (c : ascii) :
  contains s c = false → strings_Split s c = [s].
Proof.
  induction s as [|a s IH]; intros Hc; [done|].
  simpl in Hc. apply orb_false_iff in Hc as [Ha Hs].
  simpl. by rewrite Ha, (IH Hs).
Qed.

Lemma strings_Split_fields (s : string) (c : ascii) :
  Forall (λ field, contains field c = false) (strings_Split s c).
Proof.
  induction s as [|a s IH]; simpl; [by repeat constructor|].
  destruct (Ascii.eqb a c) eqn:Ha; [by constructor|].
  destruct (strings_Split s c) as [|field fields].
  { repeat constructor. simpl. by rewrite Ha. }
  inversion IH; subst. constructor; [|done]. simpl. by rewrite Ha.
Qed.

Lemma strings_Split_fprintlns (entries : list string) :
  Forall (λ e, contains e LF = false) entries →
  strings_Split (fprintlns entries) LF = entries ++ [""].
Proof.
  induction 1 as [|e entries He _ IH]; [done|].
  change (fprintlns (e :: entries)) with (e +:+ String LF (fprintlns entries)).
  by rewrite strings_Split_cons_sep, IH.
Qed.

Lemma scan_tokens_lines (entries : list string) :
  Forall (λ e, too_long e = false) entries →
  scan_tokens (entries ++ [""]) = (dropCR <$> entries, None).
Proof.
  induction 1 as [|e entries He _ IH]; [done|].
  change ((e :: entries) ++ [""]) with (e :: (entries ++ [""])).
  destruct (entries ++ [""]) as [|seg segs] eqn:Hsegs.
  { by destruct entries. }
  change (scan_tokens (e :: seg :: segs))
    with (if too_long e then ([], Some ErrTooLong)
          else let '(tokens, err) := scan_tokens (seg :: segs) in
               (dropCR e :: tokens, err)).
  by rewrite He, IH.
Qed.

Lemma nonblank_filter (tokens out : list string) :
  nonblank tokens out = out ++ filter (λ t, t ≠ "") tokens.
Proof.
  revert out. induction tokens as [|t tokens IH]; intros out; simpl.
  - by rewrite app_nil_r.
  - rewrite filter_cons. case_bool_decide; rewrite IH; case_decide; try done.
    by rewrite <- app_assoc.
Qed.

(** What [getParentIds] makes of the lines [fmt.Fprintln] wrote. *)
Lemma parse_chain_fprintlns (entries : list string) :
  Forall (λ e, contains e LF = false) entries →
  Forall (λ e, too_long e = false) entries →
  (bufio_Scan (fprintlns entries)).2 = None ∧
  parse_chain (fprintlns entries)
  = filter (λ t, t ≠ "") (dropCR <$> entries).
Proof.
  intros Hlf Hlen. unfold parse_chain, bufio_Scan.
  rewrite strings_Split_fprintlns, scan_tokens_lines by done.
  split; [done|]. simpl. by rewrite nonblank_filter.
Qed.

Lemma filter_plain (entries : list string) :
  Forall plain_entry entries →
  filter (λ t, t ≠ "") (dropCR <$> entries) = entries.
Proof.
  induction 1 as [|e entries (Hne & _ & Hcr & _) _ IH]; [done|].
  rewrite fmap_cons, Hcr, filter_cons. case_decide; [|done]. by rewrite IH.
Qed.

(** X1. A descriptor that holds plain entries, each written by
    [fmt.Fprintln], is read back by [getParentIds] as exactly these entries,
    in their order, and no file is changed by reading. *)
Theorem getParentIds_reads_written_entries
    layersP (fs : gmap string string) (entries : list string) :
  Forall plain_entry entries →
  fs !! layersP = Some (fprintlns entries) →
  getParentIds layersP fs = (fs, Ok entries).
Proof.
  intros Hplain Hfile.
  destruct (parse_chain_fprintlns entries) as [Herr Hchain].
  { eapply Forall_impl; [done|]. by intros e (_ & ? & _). }
  { eapply Forall_impl; [done|]. by intros e (_ & _ & _ & ?). }
  rewrite (getParentIds_Some _ _ _ Hfile Herr), Hchain.
  by rewrite filter_plain.
Qed.

Lemma example_chain_plain : Forall plain_entry ["ca1"; "base"; "p1"; "p2"].
Proof. repeat constructor; done. Defined.

Lemma getParentIds_reads_written_entries_witness :
  getParentIds (layersP_of "top") example_fs
  = (example_fs, Ok ["ca1"; "base"; "p1"; "p2"]).
Proof.
  apply (getParentIds_reads_written_entries (layersP_of "top") example_fs
           ["ca1"; "base"; "p1"; "p2"]).
  - exact example_chain_plain.
  - vm_compute. reflexivity.
Defined.

Lemma contains_dropCR (s : string) (c : ascii) :
  contains s c = false → contains (dropCR s) c = false.
Proof.
  induction s as [|a s IH]; [done|]. intros Hc.
  simpl in Hc. apply orb_false_iff in Hc as [Ha Hs].
  destruct s as [|b s]; simpl.
  - destruct (Ascii.eqb a CR); [done|]. simpl. by rewrite Ha.
  - rewrite Ha. by apply IH.
Qed.

Lemma length_dropCR (s : string) : String.length (dropCR s) ≤ String.length s.
Proof.
  induction s as [|a s IH]; [done|].
  destruct s as [|b s]; simpl.
  - destruct (Ascii.eqb a CR); simpl; lia.
  - simpl in IH. lia.
Qed.

Lemma too_long_dropCR (s : string) :
  too_long s = false → too_long (dropCR s) = false.
Proof.
  unfold too_long, MaxScanTokenSize. rewrite !N.leb_gt.
  pose proof (length_dropCR s). lia.
Qed.

(** Every token the scanner hands out is the image under [dropCR] of a
    segment that is not too long. *)
Lemma scan_tokens_Forall (P : string → Prop) (segments : list string) :
  Forall (λ seg, too_long seg = false → P (dropCR seg)) segments →
  Forall P (scan_tokens segments).1.
Proof.
  induction 1 as [|seg segments Hseg _ IH]; [by constructor|].
  destruct segments as [|seg' segments].
  - simpl. case_bool_decide; [by constructor|].
    destruct (too_long seg) eqn:Hlen; simpl; [by constructor|].
    repeat constructor. by apply Hseg.
  - change (scan_tokens (seg :: seg' :: segments))
      with (if too_long seg then ([], Some ErrTooLong)
            else let '(tokens, err) := scan_tokens (seg' :: segments) in
                 (dropCR seg :: tokens, err)).
    destruct (too_long seg) eqn:Hlen; [by constructor|].
    destruct (scan_tokens (seg' :: segments)) as [tokens err].
    constructor; [by apply Hseg | done].
Qed.

Lemma parse_chain_Forall (D : string) :
  Forall (λ id, id ≠ "" ∧ contains id LF = false ∧ too_long id = false)
         (parse_chain D).
Proof.
  unfold parse_chain. rewrite nonblank_filter, app_nil_l.
  assert (Forall (λ t, contains t LF = false ∧ too_long t = false)
                 (bufio_Scan D).1) as Hall.
  { apply scan_tokens_Forall.
    eapply Forall_impl; [apply strings_Split_fields|].
    intros seg Hlf Hlen. split; [by apply contains_dropCR|].
    by apply too_long_dropCR. }
  rewrite Forall_forall in Hall. apply Forall_forall.
  intros id [Hne Hin]%list_elem_of_filter. split; [done|]. by apply Hall.
Qed.

(** X2. Whenever [getParentIds] returns a chain, it has changed no file, and
    no entry of the chain is empty, holds a newline, or reaches the limit of
    the scanner. *)
Theorem getParentIds_entries_wellformed
    layersP (fs fs' : gmap string string) (ids : list string) :
  getParentIds layersP fs = (fs', Ok ids) →
  fs' = fs ∧
  Forall (λ id, id ≠ "" ∧ contains id LF = false ∧ too_long id = false) ids.
Proof.
  intros [-> Hids]%getParentIds_inv. split; [done|].
  destruct (Hids _ eq_refl) as (D & _ & _ & ->). apply parse_chain_Forall.
Qed.

Lemma example_getParentIds :
  getParentIds (layersP_of "top") example_fs
  = (example_fs, Ok ["ca1"; "base"; "p1"; "p2"]).
Proof.
  assert (example_fs !! layersP_of "top"
          = Some (fprintlns ["ca1"; "base"; "p1"; "p2"])) as Hfile
    by (vm_compute; reflexivity).
  rewrite (getParentIds_Some _ _ _ Hfile) by (vm_compute; reflexivity).
  do 2 f_equal.
Defined.

Lemma getParentIds_entries_wellformed_witness :
  example_fs = example_fs ∧
  Forall (λ id, id ≠ "" ∧ contains id LF = false ∧ too_long id = false)
         ["ca1"; "base"; "p1"; "p2"].
Proof.
  apply (getParentIds_entries_wellformed (layersP_of "top") example_fs).
  exact example_getParentIds.
Defined.

(** ** The manifest loop *)

Lemma load_manifest_app (before after : list string) :
  ∀ m functionM : gmap string string,
  load_manifest (before ++ after) m = Ok functionM →
  ∃ m', load_manifest before m = Ok m' ∧ load_manifest after m' = Ok functionM.
Proof.
  induction before as [|t before IH]; intros m functionM Hload; simpl in *.
  - by exists m.
  - case_bool_decide; [|by apply IH].
    destruct (strings_Split t ",") as [|m0 [|m1 rest]]; try discriminate.
    by apply IH.
Qed.

Lemma load_manifest_no_record (name : string) (tokens : list string) :
  ∀ m functionM : gmap string string,
  load_manifest tokens m = Ok functionM →
  has_record tokens name = false →
  functionM !! name = m !! name.
Proof.
  induction tokens as [|t tokens IH]; intros m functionM Hload Hrec;
    simpl in *; [by simplify_eq|].
  apply orb_false_iff in Hrec as [Ht Hrec].
  case_bool_decide; [|by apply IH].
  destruct (strings_Split t ",") as [|m0 [|m1 rest]]; try discriminate.
  apply bool_decide_eq_false in Ht.
  rewrite (IH _ _ Hload Hrec). by apply lookup_insert_ne.
Qed.

(** X3. When the manifest loads, the digest of a name is the one of the last
    line that is a record for it: the text between the first and the second
    comma of that line, or up to its end. Earlier records for the name and
    further fields of the line play no part. *)
Theorem load_manifest_last_record_wins
    (before after : list string) (t name digest : string) (rest : list string)
    (m functionM : gmap string string) :
  load_manifest (before ++ t :: after) m = Ok functionM →
  strings_Split t "," = name :: digest :: rest →
  has_record after name = false →
  functionM !! name = Some digest.
Proof.
  intros (m' & _ & Hload)%load_manifest_app Hsplit Hlast. simpl in Hload.
  rewrite Hsplit in Hload. case_bool_decide as Ht.
  - rewrite (load_manifest_no_record _ _ _ _ Hload Hlast).
    apply lookup_insert_eq.
  - assert (t = "") as -> by (by destruct (decide (t = ""))). discriminate.
Qed.

Lemma load_manifest_last_record_wins_witness :
  load_manifest ["f1,old"; "f1,new,more"; "f2,other"] ∅
  = Ok {[ "f1" := "new"; "f2" := "other" ]} ∧
  ({[ "f1" := "new"; "f2" := "other" ]} : gmap string string) !! "f1"
  = Some "new".
Proof.
  assert (load_manifest (["f1,old"] ++ "f1,new,more" :: ["f2,other"]) ∅
          = Ok {[ "f1" := "new"; "f2" := "other" ]}) as Hload
    by (vm_compute; reflexivity).
  split; [exact Hload|].
  apply (load_manifest_last_record_wins ["f1,old"] ["f2,other"] "f1,new,more"
           "f1" "new" ["more"] ∅ _ Hload); reflexivity.
Defined.

(** X4. The manifest loop treats a manifest as it treats the same manifest
    without its empty lines. *)
Theorem load_manifest_skips_empty_lines
    (tokens : list string) (m : gmap string string) :
  load_manifest tokens m = load_manifest (filter (λ t, t ≠ "") tokens) m.
Proof.
  revert m. induction tokens as [|t tokens IH]; intros m; [done|].
  rewrite filter_cons. simpl. case_bool_decide; case_decide; try done.
  simpl. rewrite bool_decide_true by done.
  destruct (strings_Split t ",") as [|m0 [|m1 rest]]; [done..|]. apply IH.
Qed.

(** X5. Whenever the manifest of the request holds a line, among those the
    scanner hands out, that is not empty and has no comma in it, [compose]
    panics on the index [m[1]] and no file is changed, whatever the other
    lines and the rest of the file system are. *)
Theorem compose_panics_on_line_without_comma
    paras (fs : gmap string string) para0 manifestF
    (before after : list string) (t : string) :
  paras !! 0 = Some para0 →
  fs !! manifestP para0 = Some manifestF →
  (bufio_Scan manifestF).1 = before ++ t :: after →
  t ≠ "" →
  contains t "," = false →
  compose paras fs = (fs, Panic "index out of range").
Proof.
  intros Hp0 HmF Hscan Ht Hcomma.
  apply (compose_manifest_panic _ _ _ _ _ Hp0 HmF).
  rewrite Hscan. apply load_manifest_no_comma; [done|].
  by apply strings_Split_no_sep.
Qed.

Lemma malformed_manifest_lookup :
  malformed_fs !! manifestP "f1"
  = Some (fprintlns ["f1,sha-A"; "f2"; "chainID,sha-T"]).
Proof. apply lookup_insert_eq. Defined.

Lemma compose_panics_on_line_without_comma_witness :
  compose ["f1"; "f2"] malformed_fs
  = (malformed_fs, Panic "index out of range").
Proof.
  apply (compose_panics_on_line_without_comma ["f1"; "f2"] malformed_fs "f1"
           (fprintlns ["f1,sha-A"; "f2"; "chainID,sha-T"])
           ["f1,sha-A"] ["chainID,sha-T"] "f2").
  - reflexivity.
  - exact malformed_manifest_lookup.
  - vm_compute. reflexivity.
  - discriminate.
  - reflexivity.
Defined.

(** ** What [compose] touches and what it leaves *)

Lemma example_manifest_loads :
  load_manifest (bufio_Scan example_manifest).1 ∅ = Ok example_functionM.
Proof. vm_compute. reflexivity. Defined.

(** X7. Whenever [compose] returns a path, the only files that differ from
    before are the one at that path and the one at its backup path: the
    manifest, the [cache-id] files and every other descriptor are as they
    were. *)
Theorem compose_touches_two_paths
    paras (fs fs' : gmap string string) layersP (k : string) :
  compose paras fs = (fs', Ok layersP) →
  k ≠ layersP → k ≠ backupP layersP →
  fs' !! k = fs !! k.
Proof.
  intros (functionM & funcs & top & D & _ & -> & ->)%compose_Ok_inv Hk1 Hk2.
  unfold swapped. by rewrite !lookup_insert_ne, lookup_delete_ne.
Qed.

Lemma compose_touches_two_paths_witness :
  example_composed !! manifestP "f1" = example_fs !! manifestP "f1".
Proof.
  apply (compose_touches_two_paths ["f1"; "f2"] example_fs example_composed
           (layersP_of "top") (manifestP "f1")).
  - exact example_compose.
  - vm_compute. discriminate.
  - vm_compute. discriminate.
Defined.

Lemma contains_strings_Replace (s : string) (c : ascii) :
  contains (strings_Replace s c) c = false.
Proof.
  induction s as [|a s IH]; [done|]. simpl.
  destruct (Ascii.eqb a c) eqn:Ha; [done|]. simpl. by rewrite Ha.
Qed.

(** No CacheID of a request that resolves has a newline in it. *)
Lemma resolves_no_newline
    (fs : gmap string string) paras functionM funcs top D :
  resolves fs paras functionM funcs top D →
  Forall (λ id, contains id LF = false) (funcs ++ [top]).
Proof.
  intros Hall%resolves_Forall2.
  apply Forall_forall. intros id [i Hi]%list_elem_of_lookup.
  destruct (Forall2_lookup_r _ _ _ _ _ Hall Hi) as (para & _ & Hid).
  unfold cache_id in Hid.
  destruct (fs !! layerdbP (map_get functionM para)) as [fd|]; simplify_eq/=.
  apply contains_strings_Replace.
Qed.

Lemma after_first_Forall (P : string → Prop) (key : string) (chain : list string) :
  Forall P chain → Forall P (after_first key chain).
Proof.
  induction 1 as [|e chain He Hchain IH]; simpl; [by constructor|].
  by case_bool_decide.
Qed.

(** X8. Whenever [compose] returns a path and no function CacheID reaches
    the limit of the scanner, [getParentIds] reads the new descriptor without
    error: it gives the reversed function CacheIDs followed by the entries
    taken from the original chain, each without one trailing carriage return,
    and without those that are empty then. *)
Theorem compose_descriptor_reads_back
    paras (fs fs' : gmap string string) layersP :
  compose paras fs = (fs', Ok layersP) →
  ∃ functionM funcs top D,
    resolves fs paras functionM funcs top D ∧
    (Forall (λ id, too_long id = false) funcs →
     getParentIds layersP fs'
     = (fs', Ok (filter (λ t, t ≠ "")
                   (dropCR <$> reverse funcs ++
                      after_first (split_point funcs top) (parse_chain D))))).
Proof.
  intros (functionM & funcs & top & D & Hres & -> & ->)%compose_Ok_inv.
  exists functionM, funcs, top, D. split; [done|]. intros Hshort.
  pose proof (resolves_no_newline _ _ _ _ _ _ Hres) as Hlf.
  apply Forall_app in Hlf as [Hlf _].
  pose proof (after_first_Forall _ (split_point funcs top) _
                (parse_chain_Forall D)) as Hafter.
  destruct (parse_chain_fprintlns
              (reverse funcs ++
               after_first (split_point funcs top) (parse_chain D)))
    as [Herr Hchain].
  { apply Forall_app. split; [by apply Forall_reverse|].
    eapply Forall_impl; [exact Hafter|]. by intros id (_ & ? & _). }
  { apply Forall_app. split; [by apply Forall_reverse|].
    eapply Forall_impl; [exact Hafter|]. by intros id (_ & _ & ?). }
  rewrite (getParentIds_Some _ _ _ (swapped_lookup _ _ _ _) Herr).
  by rewrite Hchain.
Qed.

Lemma compose_descriptor_reads_back_witness :
  ∃ functionM funcs top D,
    resolves example_fs ["f1"; "f2"] functionM funcs top D ∧
    (Forall (λ id, too_long id = false) funcs →
     getParentIds (layersP_of "top") example_composed
     = (example_composed,
        Ok (filter (λ t, t ≠ "")
              (dropCR <$> reverse funcs ++
                 after_first (split_point funcs top) (parse_chain D))))).
Proof.
  apply (compose_descriptor_reads_back ["f1"; "f2"] example_fs).
  exact example_compose.
Defined.

(** ** [restore] on its own *)

Lemma restore_no_descriptor layersP (fs : gmap string string) :
  fs !! layersP = None →
  restore layersP fs = (fs, Err (PathError "remove" layersP)).
Proof.
  intros Hnone. unfold restore. apply bind_Err. unfold os_Remove.
  by rewrite Hnone.
Qed.

Lemma restore_no_backup layersP (fs : gmap string string) content :
  fs !! layersP = Some content →
  fs !! backupP layersP = None →
  restore layersP fs
  = (delete layersP fs, Err (LinkError "rename" (backupP layersP) layersP)).
Proof.
  intros Hfile Hnone. unfold restore.
  erewrite bind_Ok by (unfold os_Remove; by rewrite Hfile).
  rewrite strings_Join_backup. unfold os_Rename.
  by rewrite lookup_delete_ne, Hnone by (symmetry; apply backupP_ne).
Qed.

Lemma restore_both layersP (fs : gmap string string) content D :
  fs !! layersP = Some content →
  fs !! backupP layersP = Some D →
  restore layersP fs = (<[layersP := D]> (delete (backupP layersP) fs), Ok tt).
Proof.
  intros Hfile Hbackup. pose proof (backupP_ne layersP) as Hne. unfold restore.
  erewrite bind_Ok by (unfold os_Remove; by rewrite Hfile).
  rewrite strings_Join_backup. unfold os_Rename.
  rewrite lookup_delete_ne, Hbackup by done. f_equal.
  apply map_eq. intros k.
  destruct (decide (k = layersP)) as [->|Hk1]; [by simplify_map_eq|].
  destruct (decide (k = backupP layersP)) as [->|Hk2]; by simplify_map_eq.
Qed.

(** X9. [restore] succeeds exactly when a file stands at the path and a
    file stands at its backup path. It then leaves the content of the backup
    at the path and nothing at the backup path, and touches no other file. *)
Theorem restore_succeeds_iff layersP (fs fs' : gmap string string) :
  restore layersP fs = (fs', Ok tt) ↔
  ∃ content D,
    fs !! layersP = Some content ∧
    fs !! backupP layersP = Some D ∧
    fs' = <[layersP := D]> (delete (backupP layersP) fs).
Proof.
  split.
  - intros Hrestore.
    destruct (fs !! layersP) as [content|] eqn:Hfile; last first.
    { by rewrite (restore_no_descriptor _ _ Hfile) in Hrestore. }
    destruct (fs !! backupP layersP) as [D|] eqn:Hbackup; last first.
    { by rewrite (restore_no_backup _ _ _ Hfile Hbackup) in Hrestore. }
    rewrite (restore_both _ _ _ _ Hfile Hbackup) in Hrestore.
    exists content, D. by simplify_eq.
  - intros (content & D & Hfile & Hbackup & ->). by eapply restore_both.
Qed.

(** X10. When a file stands at the path and none at its backup path,
    [restore] returns the error of the rename after it has removed the file:
    the descriptor is gone, and nothing stands at either path. *)
Theorem restore_without_backup_loses_descriptor
    layersP (fs : gmap string string) content :
  fs !! layersP = Some content →
  fs !! backupP layersP = None →
  ∃ fs' e, restore layersP fs = (fs', Err e) ∧
           fs' !! layersP = None ∧
           fs' !! backupP layersP = None ∧
           ∀ k, k ≠ layersP → fs' !! k = fs !! k.
Proof.
  intros Hfile Hnone. eexists _, _.
  split; [by eapply restore_no_backup|].
  split; [apply lookup_delete_eq|].
  split; [by rewrite lookup_delete_ne by (symmetry; apply backupP_ne)|].
  intros k Hk. by apply lookup_delete_ne.
Qed.

Lemma restore_without_backup_loses_descriptor_witness :
  ∃ fs' e, restore "layers/top" {[ "layers/top" := "composed" ]} = (fs', Err e) ∧
           fs' !! "layers/top" = None ∧
           fs' !! backupP "layers/top" = None ∧
           ∀ k, k ≠ "layers/top" →
                fs' !! k = ({[ "layers/top" := "composed" ]} : gmap string string) !! k.
Proof.
  apply (restore_without_backup_loses_descriptor "layers/top"
           {[ "layers/top" := "composed" ]} "composed"); reflexivity.
Defined.

(** X11. When no file stands at the path, [restore] fails at the removal and
    changes nothing: a backup that is there stays at the backup path and is
    not moved back. *)
Theorem restore_without_descriptor_keeps_backup
    layersP (fs : gmap string string) D :
  fs !! layersP = None →
  fs !! backupP layersP = Some D →
  ∃ fs', restore layersP fs = (fs', Err (PathError "remove" layersP)) ∧
         fs' = fs ∧ fs' !! layersP = None ∧ fs' !! backupP layersP = Some D.
Proof.
  intros Hnone Hbackup. exists fs. by rewrite restore_no_descriptor.
Qed.

Lemma restore_without_descriptor_keeps_backup_witness :
  ∃ fs', restore "layers/top" {[ backupP "layers/top" := "original" ]}
         = (fs', Err (PathError "remove" "layers/top")) ∧
         fs' = {[ backupP "layers/top" := "original" ]} ∧
         fs' !! "layers/top" = None ∧
         fs' !! backupP "layers/top" = Some "original".
Proof.
  apply (restore_without_descriptor_keeps_backup "layers/top"
           {[ backupP "layers/top" := "original" ]} "original"); reflexivity.
Defined.

(** ** [compose] and [restore] in sequence *)

(** X12. [restore] is not to be run twice: after [compose] and one
    [restore], a second [restore] on the same path removes the descriptor,
    fails at the rename, and leaves no file at the path. *)
Theorem restore_twice_loses_descriptor
    paras (fs fs1 fs2 : gmap string string) layersP :
  compose paras fs = (fs1, Ok layersP) →
  restore layersP fs1 = (fs2, Ok tt) →
  ∃ fs3 e, restore layersP fs2 = (fs3, Err e) ∧ fs3 !! layersP = None.
Proof.
  intros (functionM & funcs & top & D & Hres & -> & ->)%compose_Ok_inv Hrestore.
  destruct Hres as (_ & _ & _ & HD & _).
  rewrite (restore_swapped _ _ _ _ HD) in Hrestore. simplify_eq.
  eexists _, _. split.
  - apply (restore_no_backup _ _ D).
    + by rewrite lookup_delete_ne by apply backupP_ne.
    + apply lookup_delete_eq.
  - apply lookup_delete_eq.
Qed.

Lemma example_descriptor :
  example_fs !! layersP_of "top" = Some (fprintlns ["ca1"; "base"; "p1"; "p2"]).
Proof. vm_compute. reflexivity. Defined.

Lemma example_restore :
  restore (layersP_of "top") example_composed
  = (delete (backupP (layersP_of "top")) example_fs, Ok tt).
Proof. exact (restore_swapped _ _ _ _ example_descriptor). Defined.

Lemma restore_twice_loses_descriptor_witness :
  ∃ fs3 e,
    restore (layersP_of "top") (delete (backupP (layersP_of "top")) example_fs)
    = (fs3, Err e) ∧
    fs3 !! layersP_of "top" = None.
Proof.
  apply (restore_twice_loses_descriptor ["f1"; "f2"] example_fs
           example_composed).
  - exact example_compose.
  - exact example_restore.
Defined.

(** X13. A second [compose] on a descriptor that is still composed takes
    the composed content for the original. The first [compose] has put the
    content the descriptor had at the backup path; the second puts there what
    the first one wrote. The [restore] that follows succeeds, the descriptor
    holds what the first [compose] wrote, and no backup is left: the
    descriptor is as it was before the first [compose] only if the first
    [compose] wrote it as it was. *)
Theorem compose_twice_restore_returns_composed
    paras paras' (fs fs1 fs2 : gmap string string) layersP :
  compose paras fs = (fs1, Ok layersP) →
  compose paras' fs1 = (fs2, Ok layersP) →
  ∃ D C fs3,
    fs !! layersP = Some D ∧
    fs1 !! layersP = Some C ∧ fs1 !! backupP layersP = Some D ∧
    fs2 !! backupP layersP = Some C ∧
    restore layersP fs2 = (fs3, Ok tt) ∧
    fs3 !! layersP = Some C ∧ fs3 !! backupP layersP = None ∧
    (fs3 !! layersP = fs !! layersP ↔ C = D).
Proof.
  intros (functionM & funcs & top & D & Hres & -> & ->)%compose_Ok_inv.
  intros (functionM' & funcs' & top' & C & Hres' & Htop & ->)%compose_Ok_inv.
  destruct Hres as (_ & _ & _ & HD & _).
  destruct Hres' as (_ & _ & _ & HC & _).
  rewrite <- Htop in *.
  exists D, C, (delete (backupP (layersP_of top))
                  (swapped fs (layersP_of top) D
                     (fprintlns (reverse funcs ++
                        after_first (split_point funcs top) (parse_chain D))))).
  split; [done|]. split; [done|].
  split; [apply swapped_lookup_backup|].
  split; [apply swapped_lookup_backup|].
  split; [by apply restore_swapped|].
  split; [by rewrite lookup_delete_ne by apply backupP_ne|].
  split; [apply lookup_delete_eq|].
  rewrite lookup_delete_ne by apply backupP_ne. rewrite HC, HD.
  split; [by intros [= ->]|by intros ->].
Qed.

Lemma example_composed_resolves :
  resolves example_composed ["f1"; "f2"] example_functionM
    ["ca1"; "ca2"] "top" (fprintlns ["ca2"; "ca1"; "base"; "p1"; "p2"]).
Proof.
  split; [exists "f1", example_manifest|]; repeat split; vm_compute; reflexivity.
Defined.

Lemma compose_twice_restore_returns_composed_witness :
  ∃ D C fs3,
    example_fs !! layersP_of "top" = Some D ∧
    example_composed !! layersP_of "top" = Some C ∧
    example_composed !! backupP (layersP_of "top") = Some D ∧
    swapped example_composed (layersP_of "top")
      (fprintlns ["ca2"; "ca1"; "base"; "p1"; "p2"])
      (fprintlns (reverse ["ca1"; "ca2"] ++
                  after_first (split_point ["ca1"; "ca2"] "top")
                    (parse_chain
                       (fprintlns ["ca2"; "ca1"; "base"; "p1"; "p2"]))))
      !! backupP (layersP_of "top") = Some C ∧
    restore (layersP_of "top")
      (swapped example_composed (layersP_of "top")
         (fprintlns ["ca2"; "ca1"; "base"; "p1"; "p2"])
         (fprintlns (reverse ["ca1"; "ca2"] ++
                     after_first (split_point ["ca1"; "ca2"] "top")
                       (parse_chain
                          (fprintlns ["ca2"; "ca1"; "base"; "p1"; "p2"])))))
    = (fs3, Ok tt) ∧
    fs3 !! layersP_of "top" = Some C ∧
    fs3 !! backupP (layersP_of "top") = None ∧
    (fs3 !! layersP_of "top" = example_fs !! layersP_of "top" ↔ C = D).
Proof.
  apply (compose_twice_restore_returns_composed ["f1"; "f2"] ["f1"; "f2"]
           example_fs example_composed).
  - exact example_compose.
  - exact (compose_Ok _ _ _ _ _ _ example_composed_resolves).
Defined.

(** ** [create]: what it calls and what it leaves *)

Lemma on_files_inv {A} (c : Call) (m : M (gmap string string) A)
    (w w' : World) (r : outcome A) :
  on_files c m w = (w', r) →
  m (files w) = (files w', r) ∧ calls w' = calls w ++ [c].
Proof.
  unfold on_files. destruct (m (files w)) as [fs r']. by intros [= <- <-].
Qed.

Lemma call_keeps_files (d : Collaborators) (s : Step) (w w' : World) r :
  keeps_files d → call d s w = (w', r) → files w' = files w.
Proof.
  intros Hkeep H. unfold call in H. apply on_files_inv in H as [Hd _].
  specialize (Hkeep s (files w)).
  destruct (d s (files w)) as [fs err]. by simplify_eq/=.
Qed.

Lemma defer_if_retErr_Ok_inv {A} (cleanup : M World unit) (body : M World A)
    (w w' : World) (a : A) :
  defer_if_retErr cleanup body w = (w', Ok a) → body w = (w', Ok a).
Proof.
  unfold defer_if_retErr. destruct (body w) as [w1 [a'|e|msg|]]; try done.
  unfold bind, throw. by destruct (cleanup w1) as [w2 [[]|e'|msg|]].
Qed.

Lemma between_defers_keeps_files (d : Collaborators) (w w' : World) :
  keeps_files d → between_defers d w = (w', Ok tt) → files w' = files w.
Proof.
  intros Hkeep H. unfold between_defers in H.
  repeat (apply bind_Ok_inv in H as (? & [] & ?%(call_keeps_files _ _ _ _ _ Hkeep) & H)).
  apply (call_keeps_files _ _ _ _ _ Hkeep) in H. congruence.
Qed.

Lemma after_defers_keeps_files (d : Collaborators) (w w' : World) :
  keeps_files d → after_defers d w = (w', Ok tt) → files w' = files w.
Proof.
  intros Hkeep H. unfold after_defers in H.
  repeat (apply bind_Ok_inv in H as (? & [] & ?%(call_keeps_files _ _ _ _ _ Hkeep) & H)).
  apply (call_keeps_files _ _ _ _ _ Hkeep) in H. congruence.
Qed.

(** What the first stretch has done when it returns a path: with an image
    named, [compose] on the names after the first underscore has returned
    that path; with none, the path is empty and no file has been looked at. *)
Lemma before_defers_Ok_inv (d : Collaborators) Image (w w' : World) layersP :
  keeps_files d →
  before_defers d Image w = (w', Ok layersP) →
  if bool_decide (Image ≠ "") then
    compose (drop 1 (strings_Split Image "_")) (files w) = (files w', Ok layersP)
  else layersP = "" ∧ files w' = files w.
Proof.
  intros Hkeep H. unfold before_defers in H.
  apply bind_Ok_inv in H as (w1 & p & H1 & H).
  apply bind_Ok_inv in H as (w2 & [] & H2%(call_keeps_files _ _ _ _ _ Hkeep) & H).
  apply bind_Ok_inv in H as (w3 & [] & H3%(call_keeps_files _ _ _ _ _ Hkeep) & H).
  unfold ret in H. simplify_eq.
  case_bool_decide.
  - apply bind_Ok_inv in H1 as (w4 & p' & [Hc _]%on_files_inv & H1).
    apply bind_Ok_inv in H1 as (w5 & [] & H5%(call_keeps_files _ _ _ _ _ Hkeep) & H1).
    unfold ret in H1. simplify_eq. congruence.
  - unfold ret in H1. simplify_eq. split; [done | congruence].
Qed.

(** What a run of [create] that returns a container has done last. *)
Lemma create_Ok_inv (d : Collaborators) Image (w w' : World) :
  keeps_files d →
  create d Image w = (w', Ok tt) →
  ∃ w1 layersP,
    before_defers d Image w = (w1, Ok layersP) ∧
    restore layersP (files w1) = (files w', Ok tt).
Proof.
  intros Hkeep H. unfold create in H.
  apply bind_Ok_inv in H as (w1 & layersP & H1 & H).
  apply defer_if_retErr_Ok_inv in H.
  apply bind_Ok_inv in H as (w2 & [] & H2%(between_defers_keeps_files _ _ _ Hkeep) & H).
  apply defer_if_retErr_Ok_inv in H.
  apply bind_Ok_inv in H as (w3 & [] & H3%(after_defers_keeps_files _ _ _ Hkeep) & H).
  apply bind_Ok_inv in H as (w4 & [] & [H4 _]%on_files_inv & H).
  unfold ret in H. simplify_eq.
  exists w1, layersP. split; [done|]. congruence.
Qed.

Lemma keeps_files_all_succeed : keeps_files all_succeed.
Proof. by intros s fs. Defined.

(** X14. A [create] that returns a container for a request that names an
    image, with collaborators that leave the files alone, has run [compose]
    on the names after the first underscore and [restore] on the path it
    returned: the descriptor holds again what it held before, and no file
    differs from before but a backup file that was already there, now gone. *)
Theorem create_success_restores_descriptor
    (d : Collaborators) Image (w w' : World) :
  keeps_files d →
  Image ≠ "" →
  create d Image w = (w', Ok tt) →
  ∃ fs1 layersP D,
    compose (drop 1 (strings_Split Image "_")) (files w) = (fs1, Ok layersP) ∧
    files w !! layersP = Some D ∧
    files w' !! layersP = Some D ∧
    files w' = delete (backupP layersP) (files w).
Proof.
  intros Hkeep Himage (w1 & layersP & Hbefore & Hrestore)%create_Ok_inv; [|done].
  apply before_defers_Ok_inv in Hbefore; [|done].
  rewrite bool_decide_true in Hbefore by done.
  exists (files w1), layersP.
  destruct (compose_Ok_inv _ _ _ _ Hbefore)
    as (functionM & funcs & top & D & Hres & -> & Hfs1).
  destruct Hres as (_ & _ & _ & HD & _).
  rewrite Hfs1, (restore_swapped _ _ _ _ HD) in Hrestore.
  exists D. injection Hrestore as Hfiles. rewrite <- Hfiles.
  repeat split; try done.
  by rewrite lookup_delete_ne by apply backupP_ne.
Qed.

(** [create] with collaborators that all succeed, once [compose] and
    [restore] are known to. *)
Lemma create_all_succeed Image (fs fs1 fs2 : gmap string string) layersP :
  Image ≠ "" →
  compose (drop 1 (strings_Split Image "_")) fs = (fs1, Ok layersP) →
  restore layersP fs1 = (fs2, Ok tt) →
  create all_succeed Image (mkWorld fs [])
  = (mkWorld fs2
       [CallCompose (drop 1 (strings_Split Image "_")); CallStep GetImage;
        CallStep mergeAndVerifyConfig; CallStep newContainer;
        CallStep setSecurityOptions; CallStep setRWLayer; CallStep Register;
        CallStep GetRootUIDGID; CallStep MkdirAs; CallStep setHostConfig;
        CallStep createContainerPlatformSpecificSettings;
        CallStep updateContainerNetworkSettings; CallStep ToDiskLocking;
        CallRestore layersP],
     Ok tt).
Proof.
  intros Himage Hcompose Hrestore. unfold create, before_defers.
  rewrite bool_decide_true by done.
  unfold between_defers, after_defers, defer_if_retErr, logged, call, on_files,
    bind, ret, throw, all_succeed.
  simpl files. rewrite Hcompose. simpl. by rewrite Hrestore.
Qed.

Lemma example_create :
  create all_succeed "base_f1_f2" example_world = (example_world_created, Ok tt).
Proof.
  unfold example_world, example_world_created.
  apply (create_all_succeed "base_f1_f2" example_fs example_composed).
  - discriminate.
  - exact example_compose.
  - exact example_restore.
Defined.

Lemma create_success_restores_descriptor_witness :
  ∃ fs1 layersP D,
    compose (drop 1 (strings_Split "base_f1_f2" "_")) (files example_world)
    = (fs1, Ok layersP) ∧
    files example_world !! layersP = Some D ∧
    files example_world_created !! layersP = Some D ∧
    files example_world_created
    = delete (backupP layersP) (files example_world).
Proof.
  apply (create_success_restores_descriptor all_succeed "base_f1_f2"
           example_world example_world_created).
  - exact keeps_files_all_succeed.
  - discriminate.
  - exact example_create.
Defined.

(** X15. A request that names no image never yields a container, whatever
    its collaborators return, as long as they leave the files alone: when
    every step succeeds, [restore] is called on the empty path, where no file
    can stand, and its error is the result of [create]. *)
Theorem create_without_image_never_succeeds
    (d : Collaborators) (w w' : World) (r : outcome unit) :
  keeps_files d →
  files w !! "" = None →
  create d "" w = (w', r) →
  r ≠ Ok tt.
Proof.
  intros Hkeep Hempty Hcreate ->.
  apply create_Ok_inv in Hcreate as (w1 & layersP & Hbefore & Hrestore); [|done].
  apply before_defers_Ok_inv in Hbefore; [|done].
  rewrite bool_decide_false in Hbefore by (by intros []).
  destruct Hbefore as [-> Hfiles]. rewrite Hfiles in Hrestore.
  by rewrite restore_no_descriptor in Hrestore.
Qed.

Lemma create_without_image_never_succeeds_witness :
  Err (PathError "remove" "") ≠ Ok tt.
Proof.
  apply (create_without_image_never_succeeds all_succeed (mkWorld ∅ [])
           (mkWorld ∅
              [CallStep mergeAndVerifyConfig; CallStep newContainer;
               CallStep setSecurityOptions; CallStep setRWLayer;
               CallStep Register; CallStep GetRootUIDGID; CallStep MkdirAs;
               CallStep setHostConfig;
               CallStep createContainerPlatformSpecificSettings;
               CallStep updateContainerNetworkSettings; CallStep ToDiskLocking;
               CallRestore ""; CallStep removeMountPoints;
               CallStep ContainerRm])).
  - exact keeps_files_all_succeed.
  - reflexivity.
  - vm_compute. reflexivity.
Defined.

(** X17. A request whose image name has no underscore in it makes [create]
    panic: [compose] is called on the empty list of names and indexes its
    first element. No collaborator has been called and no file is changed. *)
Theorem create_image_without_underscore_panics
    (d : Collaborators) Image (w : World) :
  Image ≠ "" →
  contains Image "_" = false →
  create d Image w
  = (mkWorld (files w) (calls w ++ [CallCompose []]),
     Panic "index out of range").
Proof.
  intros Himage Hnone. unfold create, before_defers.
  rewrite bool_decide_true by done.
  rewrite (strings_Split_no_sep _ _ Hnone). simpl drop.
  by apply bind_Panic, bind_Panic, bind_Panic.
Qed.

Lemma create_image_without_underscore_panics_witness :
  create all_succeed "ubuntu" (mkWorld example_fs [])
  = (mkWorld example_fs ([] ++ [CallCompose []]), Panic "index out of range").
Proof.
  apply (create_image_without_underscore_panics all_succeed "ubuntu"
           (mkWorld example_fs [])).
  - discriminate.
  - reflexivity.
Defined.

(** X18. Whenever the first stretch of [create] has succeeded, so that a
    container has been made, and [create] returns an error, the last call
    [create] has made is [ContainerRm] on that container. *)
Theorem create_error_removes_container
    (d : Collaborators) Image (w w1 w' : World) layersP e :
  before_defers d Image w = (w1, Ok layersP) →
  create d Image w = (w', Err e) →
  ∃ cs, calls w' = cs ++ [CallStep ContainerRm].
Proof.
  intros Hbefore Hcreate. unfold create in Hcreate.
  erewrite bind_Ok in Hcreate by exact Hbefore.
  unfold defer_if_retErr at 1 in Hcreate.
  destruct (bind (between_defers d) _ w1) as [w2 [[]|e2|msg|]];
    try discriminate.
  erewrite bind_Ok in Hcreate by apply logged_call.
  unfold throw in Hcreate. simplify_eq. by eexists.
Qed.

Lemma create_error_removes_container_witness :
  ∃ cs,
    [CallStep mergeAndVerifyConfig; CallStep newContainer;
     CallStep setSecurityOptions; CallStep setRWLayer; CallStep Register;
     CallStep ContainerRm]
    = cs ++ [CallStep ContainerRm].
Proof.
  apply (create_error_removes_container (fails_at Register) ""
           (mkWorld ∅ [])
           (mkWorld ∅ [CallStep mergeAndVerifyConfig; CallStep newContainer])
           (mkWorld ∅ [CallStep mergeAndVerifyConfig; CallStep newContainer;
                       CallStep setSecurityOptions; CallStep setRWLayer;
                       CallStep Register; CallStep ContainerRm])
           "" (StepError Register)); vm_compute; reflexivity.
Defined.

(** X19. When a step of the second stretch of [create] fails, between the
    two [defer] statements, [create] returns its error and the one deferred
    function registered by then has run: [ContainerRm] is called, and
    [removeMountPoints] is not. *)
Theorem create_early_failure_removes_container_only
    (d : Collaborators) Image (w w1 w2 : World) layersP e :
  before_defers d Image w = (w1, Ok layersP) →
  between_defers d w1 = (w2, Err e) →
  ∃ w', create d Image w = (w', Err e) ∧
        calls w' = calls w2 ++ [CallStep ContainerRm].
Proof.
  intros H1 H2. unfold create.
  erewrite bind_Ok by exact H1.
  unfold defer_if_retErr at 1.
  erewrite (bind_Err (between_defers d)) by exact H2.
  erewrite bind_Ok by apply logged_call.
  unfold throw. by eexists.
Qed.

Lemma create_early_failure_removes_container_only_witness :
  ∃ w', create (fails_at Register) "" (mkWorld ∅ [])
        = (w', Err (StepError Register)) ∧
        calls w' =
          calls (mkWorld (∅ : gmap string string)
                   [CallStep mergeAndVerifyConfig; CallStep newContainer;
                    CallStep setSecurityOptions; CallStep setRWLayer;
                    CallStep Register])
          ++ [CallStep ContainerRm].
Proof.
  apply (create_early_failure_removes_container_only (fails_at Register) ""
           (mkWorld ∅ [])
           (mkWorld ∅ [CallStep mergeAndVerifyConfig; CallStep newContainer])
           _ ""); vm_compute; reflexivity.
Defined.

(** X20. When a step of the third stretch of [create] fails, after both
    [defer] statements and before [restore], [create] returns its error
    without a call to [restore], and both deferred functions have run, the
    later one first: [removeMountPoints], then [ContainerRm]. *)
Theorem create_late_failure_cleans_up_in_order
    (d : Collaborators) Image (w w1 w2 w3 : World) layersP e :
  before_defers d Image w = (w1, Ok layersP) →
  between_defers d w1 = (w2, Ok tt) →
  after_defers d w2 = (w3, Err e) →
  ∃ w', create d Image w = (w', Err e) ∧
        calls w' = calls w3 ++ [CallStep removeMountPoints;
                                CallStep ContainerRm].
Proof.
  intros H1 H2 H3. unfold create.
  erewrite bind_Ok by exact H1.
  unfold defer_if_retErr at 1.
  erewrite (bind_Ok (between_defers d)) by exact H2.
  unfold defer_if_retErr at 1.
  erewrite (bind_Err (after_defers d)) by exact H3.
  erewrite bind_Ok by apply logged_call.
  unfold throw at 1.
  erewrite bind_Ok by apply logged_call.
  unfold throw. eexists. split; [reflexivity|].
  simpl. by rewrite <- !app_assoc.
Qed.

Lemma create_late_failure_cleans_up_in_order_witness :
  ∃ w', create (fails_at ToDiskLocking) "" (mkWorld ∅ [])
        = (w', Err (StepError ToDiskLocking)) ∧
        calls w' =
          calls (mkWorld (∅ : gmap string string)
                   [CallStep mergeAndVerifyConfig; CallStep newContainer;
                    CallStep setSecurityOptions; CallStep setRWLayer;
                    CallStep Register; CallStep GetRootUIDGID;
                    CallStep MkdirAs; CallStep setHostConfig;
                    CallStep createContainerPlatformSpecificSettings;
                    CallStep updateContainerNetworkSettings;
                    CallStep ToDiskLocking])
          ++ [CallStep removeMountPoints; CallStep ContainerRm].
Proof.
  apply (create_late_failure_cleans_up_in_order (fails_at ToDiskLocking) ""
           (mkWorld ∅ [])
           (mkWorld ∅ [CallStep mergeAndVerifyConfig; CallStep newContainer])
           (mkWorld ∅ [CallStep mergeAndVerifyConfig; CallStep newContainer;
                       CallStep setSecurityOptions; CallStep setRWLayer;
                       CallStep Register; CallStep GetRootUIDGID;
                       CallStep MkdirAs; CallStep setHostConfig])
           _ ""); vm_compute; reflexivity.
Defined.

(** * [compose] where directories stand *)

(** ** Reading with directories *)

Lemma node_file dirs (fs : gmap string string) name data :
  fs !! name = Some data → node dirs fs name = Some (Regular data).
Proof. intros H. unfold node. by rewrite H. Qed.

Lemma node_no_dirs (fs : gmap string string) name :
  node ∅ fs name = Regular <$> fs !! name.
Proof. unfold node. by destruct (fs !! name). Qed.

Lemma os_Open_dirs_Some dirs name (fs : gmap string string) f :
  node dirs fs name = Some f → os_Open_dirs dirs name fs = (fs, Ok f).
Proof. intros H. unfold os_Open_dirs. by rewrite H. Qed.

Lemma os_Open_dirs_None dirs name (fs : gmap string string) :
  node dirs fs name = None →
  os_Open_dirs dirs name fs = (fs, Err (PathError "open" name)).
Proof. intros H. unfold os_Open_dirs. by rewrite H. Qed.

Lemma getParentIds_dirs_Some dirs layersP (fs : gmap string string) D :
  fs !! layersP = Some D → (bufio_Scan D).2 = None →
  getParentIds_dirs dirs layersP fs = (fs, Ok (parse_chain D)).
Proof.
  intros HD Herr. unfold getParentIds_dirs, parse_chain.
  erewrite bind_Ok by (by apply os_Open_dirs_Some, node_file).
  simpl. destruct (bufio_Scan D) as [tokens err]. simpl in *. by subst err.
Qed.

Lemma os_Rename_dirs_Some dirs oldpath newpath (fs : gmap string string) D :
  fs !! oldpath = Some D → node dirs fs newpath ≠ Some Directory →
  os_Rename_dirs dirs oldpath newpath fs
  = (<[newpath := D]> (delete oldpath fs), Ok tt).
Proof.
  intros HD Hnew. unfold os_Rename_dirs, os_Rename. rewrite HD.
  by destruct (node dirs fs newpath) as [[data|]|].
Qed.

Lemma os_Rename_dirs_Directory dirs oldpath newpath (fs : gmap string string) :
  node dirs fs newpath = Some Directory →
  os_Rename_dirs dirs oldpath newpath fs
  = (fs, Err (LinkError "rename" oldpath newpath)).
Proof. intros Hnew. unfold os_Rename_dirs. by rewrite Hnew. Qed.

(** [getParentIds] returns the chain of a regular file that scans to its
    end; on anything else, a directory included, it returns an error. *)
Lemma getParentIds_dirs_cases dirs layersP (fs : gmap string string) :
  (∃ D, fs !! layersP = Some D ∧ (bufio_Scan D).2 = None) ∨
  (∃ e, getParentIds_dirs dirs layersP fs = (fs, Err e)).
Proof.
  destruct (fs !! layersP) as [D|] eqn:HD.
  - destruct (bufio_Scan D).2 as [e|] eqn:Herr; [|by eauto].
    right. exists e. unfold getParentIds_dirs.
    erewrite bind_Ok by (by apply os_Open_dirs_Some, node_file).
    simpl. destruct (bufio_Scan D) as [tokens err]. simpl in Herr. by subst err.
  - right. unfold getParentIds_dirs.
    destruct (node dirs fs layersP) as [f|] eqn:Hnode.
    + assert (f = Directory) as ->.
      { unfold node in Hnode. rewrite HD in Hnode.
        by case_bool_decide; simplify_eq. }
      eexists. erewrite bind_Ok by (by apply os_Open_dirs_Some).
      reflexivity.
    + eexists. by apply bind_Err, os_Open_dirs_None.
Qed.

Lemma resolve_dirs_Some dirs functionM (fs : gmap string string) paras ids :
  Forall2 (λ para id, cache_id_dirs dirs fs functionM para = Some id) paras ids →
  ∀ composeS,
  resolve_dirs dirs functionM paras composeS fs = (fs, Ok (composeS ++ ids)).
Proof.
  induction 1 as [|para id paras ids Hid _ IH]; intros composeS; simpl.
  - unfold ret. by rewrite app_nil_r.
  - unfold cache_id_dirs in Hid.
    destruct (node dirs fs (layerdbP (map_get functionM para))) as [f|] eqn:Hf;
      simplify_eq/=.
    erewrite bind_Ok by (by apply os_Open_dirs_Some).
    destruct (ioutil_ReadAll _ f) as [fd err] eqn:Hread. simpl.
    rewrite IH. by rewrite <- app_assoc.
Qed.

(** The resolution loop touches no file; it ends in a list with one CacheID
    per name, or in the error of the first [os.Open] that fails. *)
Lemma resolve_dirs_inv dirs functionM paras :
  ∀ composeS (fs fs' : gmap string string) r,
  resolve_dirs dirs functionM paras composeS fs = (fs', r) →
  fs' = fs ∧
  ((∃ ids, Forall2 (λ para id, cache_id_dirs dirs fs functionM para = Some id)
                   paras ids
           ∧ r = Ok (composeS ++ ids)) ∨
   (∃ para, para ∈ paras ∧
            node dirs fs (layerdbP (map_get functionM para)) = None ∧
            r = Err (PathError "open" (layerdbP (map_get functionM para))))).
Proof.
  induction paras as [|para paras IH]; intros composeS fs fs' r; simpl.
  - unfold ret. intros ?; simplify_eq. split; [done|]. left. exists [].
    by rewrite app_nil_r.
  - unfold bind, os_Open_dirs.
    destruct (node dirs fs (layerdbP (map_get functionM para))) as [f|] eqn:Hf.
    + destruct (ioutil_ReadAll _ f) as [fd err] eqn:Hread.
      intros [-> Hr]%IH. split; [done|].
      destruct Hr as [(ids & Hids & ->)|(para' & Hin & Hnone & ->)].
      * left. exists (strings_Replace fd LF :: ids). split.
        -- constructor; [|done]. unfold cache_id_dirs. rewrite Hf. simpl. by rewrite Hread.
        -- by rewrite <- app_assoc.
      * right. exists para'. split; [by right|done].
    + intros ?; simplify_eq. split; [done|]. right. exists para.
      split; [by left|done].
Qed.

(** ** [compose] with directories, characterised *)

Lemma resolves_dirs_Forall2 dirs fs paras functionM funcs top D :
  resolves_dirs dirs fs paras functionM funcs top D →
  Forall2 (λ para id, cache_id_dirs dirs fs functionM para = Some id)
          (paras ++ ["chainID"]) (funcs ++ [top]).
Proof.
  intros (_ & Hfuncs%mapM_Some & Htop & _).
  apply Forall2_app; [done|]. by constructor.
Qed.

Lemma compose_dirs_Ok dirs fs paras functionM funcs top D :
  resolves_dirs dirs fs paras functionM funcs top D →
  compose_dirs dirs paras fs =
    (swapped fs (layersP_of top) D
       (fprintlns (reverse funcs ++
                   after_first (split_point funcs top) (parse_chain D))),
     Ok (layersP_of top)).
Proof.
  intros Hres. pose proof (resolves_dirs_Forall2 _ _ _ _ _ _ _ Hres) as Hall.
  destruct Hres
    as ((para0 & manifestF & Hp0 & HmF & Hload) & _ & _ & HD & Herr & Hbackup).
  unfold compose_dirs.
  erewrite bind_Ok by (by apply index_Some).
  erewrite bind_Ok by (by apply os_Open_dirs_Some).
  erewrite bind_Ok by (unfold lift_outcome; by rewrite Hload).
  erewrite bind_Ok by (by apply resolve_dirs_Some).
  rewrite (app_nil_l (funcs ++ [top])).
  erewrite bind_Ok; last first.
  { apply index_Some.
    replace (length (funcs ++ [top]) - 1) with (length funcs)
      by (rewrite length_app; simpl; lia).
    by apply list_lookup_middle. }
  erewrite bind_Ok by (by apply getParentIds_dirs_Some).
  rewrite strings_Join_backup.
  erewrite bind_Ok by (by apply os_Rename_dirs_Some).
  erewrite bind_Ok by done.
  erewrite bind_Ok; last first.
  { apply for_range_Fprintln with (entries := reverse funcs).
    - apply Forall2_seq_reverse.
    - apply lookup_insert_eq. }
  erewrite bind_Ok; last first.
  { apply write_parents_spec with (key := split_point funcs top).
    - apply split_point_lookup.
    - lia.
    - apply lookup_insert_eq. }
  unfold ret, swapped. by rewrite drop_0, !insert_insert_eq, fprintlns_app.
Qed.

Lemma compose_dirs_manifest_panic dirs paras (fs : gmap string string)
    para0 manifestF :
  paras !! 0 = Some para0 →
  node dirs fs (manifestP para0) = Some manifestF →
  load_manifest (bufio_Scan_File (manifestP para0) manifestF).1 ∅
    = Panic "index out of range" →
  compose_dirs dirs paras fs = (fs, Panic "index out of range").
Proof.
  intros Hp0 HmF Hload. unfold compose_dirs.
  erewrite bind_Ok by (by apply index_Some).
  erewrite bind_Ok by (by apply os_Open_dirs_Some).
  apply bind_Panic. unfold lift_outcome. by rewrite Hload.
Qed.

(** Either the request resolves, and then [compose] succeeds as
    [compose_dirs_Ok] says, or [compose] stops at the rename or before it,
    with an error or a panic and every file as it was. *)
Lemma compose_dirs_outcomes dirs paras (fs : gmap string string) :
  (∃ functionM funcs top D, resolves_dirs dirs fs paras functionM funcs top D) ∨
  (∃ r, compose_dirs dirs paras fs = (fs, r) ∧
        ((∃ e, r = Err e) ∨ (∃ msg, r = Panic msg))).
Proof.
  destruct (paras !! 0) as [para0|] eqn:Hp0; last first.
  { right. eexists. split; [|right; eauto].
    unfold compose_dirs. apply bind_Panic. unfold index. by rewrite Hp0. }
  destruct (node dirs fs (manifestP para0)) as [manifestF|] eqn:HmF; last first.
  { right. eexists. split; [|left; eauto].
    unfold compose_dirs. erewrite bind_Ok by (by apply index_Some).
    by apply bind_Err, os_Open_dirs_None. }
  destruct (load_manifest_cases
              (bufio_Scan_File (manifestP para0) manifestF).1 ∅)
    as [[functionM Hload]|Hload]; last first.
  { right. eexists. split; [by eapply compose_dirs_manifest_panic|right; eauto]. }
  destruct (resolve_dirs dirs functionM (paras ++ ["chainID"]) [] fs)
    as [fs1 r] eqn:Hr.
  pose proof Hr as Hr'.
  apply resolve_dirs_inv in Hr' as [-> [(ids & Hall & ->)|(para & _ & _ & ->)]];
    last first.
  { right. eexists. split; [|left; eauto]. unfold compose_dirs.
    erewrite bind_Ok by (by apply index_Some).
    erewrite bind_Ok by (by apply os_Open_dirs_Some).
    erewrite bind_Ok by (unfold lift_outcome; by rewrite Hload).
    apply (bind_Err _ _ _ _ _ Hr). }
  apply Forall2_app_inv_l in Hall as (funcs & tops & Hfuncs & Htop & ->).
  inversion Htop as [|? top ? tops' Ht Hnil]; subst. inversion Hnil; subst.
  assert ((funcs ++ [top]) !! (length (funcs ++ [top]) - 1) = Some top)
    as Hlast.
  { replace (length (funcs ++ [top]) - 1) with (length funcs)
      by (rewrite length_app; simpl; lia).
    by apply list_lookup_middle. }
  destruct (getParentIds_dirs_cases dirs (layersP_of top) fs)
    as [(D & HD & Herr)|[e He]]; last first.
  { right. eexists. split; [|left; eauto]. unfold compose_dirs.
    erewrite bind_Ok by (by apply index_Some).
    erewrite bind_Ok by (by apply os_Open_dirs_Some).
    erewrite bind_Ok by (unfold lift_outcome; by rewrite Hload).
    erewrite bind_Ok by exact Hr.
    rewrite (app_nil_l (funcs ++ [top])).
    erewrite bind_Ok by (by apply index_Some, Hlast).
    apply (bind_Err _ _ _ _ _ He). }
  assert (node dirs fs (backupP (layersP_of top)) = Some Directory ∨
          node dirs fs (backupP (layersP_of top)) ≠ Some Directory)
    as [Hbackup|Hbackup]
    by (destruct (node dirs fs (backupP (layersP_of top))) as [[data|]|];
        [by right|by left|by right]).
  { right. eexists. split; [|left; eauto]. unfold compose_dirs.
    erewrite bind_Ok by (by apply index_Some).
    erewrite bind_Ok by (by apply os_Open_dirs_Some).
    erewrite bind_Ok by (unfold lift_outcome; by rewrite Hload).
    erewrite bind_Ok by exact Hr.
    rewrite (app_nil_l (funcs ++ [top])).
    erewrite bind_Ok by (by apply index_Some, Hlast).
    erewrite bind_Ok by (by apply getParentIds_dirs_Some).
    rewrite strings_Join_backup.
    by apply bind_Err, os_Rename_dirs_Directory. }
  left. exists functionM, funcs, top, D.
  split; [by eauto|]. split; [by apply mapM_Some|]. done.
Qed.

(** ** The two embeddings of [compose] *)

Lemma cache_id_dirs_file dirs (fs : gmap string string) functionM para id :
  cache_id fs functionM para = Some id →
  cache_id_dirs dirs fs functionM para = Some id.
Proof.
  unfold cache_id, cache_id_dirs.
  destruct (fs !! layerdbP (map_get functionM para)) as [fd|] eqn:Hfd;
    intros ?; simplify_eq/=.
  by rewrite (node_file _ _ _ _ Hfd).
Qed.

Lemma resolves_dirs_files dirs fs paras functionM funcs top D :
  resolves fs paras functionM funcs top D →
  node dirs fs (backupP (layersP_of top)) ≠ Some Directory →
  resolves_dirs dirs fs paras functionM funcs top D.
Proof.
  intros ((para0 & manifestF & Hp0 & HmF & Hload) & Hfuncs & Htop & HD & Herr).
  intros Hbackup.
  split; [|split; [|split]].
  - exists para0, (Regular manifestF). by rewrite (node_file _ _ _ _ HmF).
  - apply mapM_Some. apply mapM_Some in Hfuncs.
    eapply Forall2_impl; [exact Hfuncs|]. intros para id.
    apply cache_id_dirs_file.
  - by apply cache_id_dirs_file.
  - done.
Qed.

(** A run of [compose] that returns a path over regular files is a run of
    [compose] in every file system that has these files, whatever
    directories stand beside them, the backup path apart: the same path is
    returned and the same files are left. *)
Lemma compose_dirs_files dirs paras (fs fs' : gmap string string) layersP :
  compose paras fs = (fs', Ok layersP) →
  node dirs fs (backupP layersP) ≠ Some Directory →
  compose_dirs dirs paras fs = (fs', Ok layersP).
Proof.
  intros (functionM & funcs & top & D & Hres & -> & ->)%compose_Ok_inv Hbackup.
  by apply (compose_dirs_Ok _ _ _ functionM), resolves_dirs_files.
Qed.

Lemma bind_congr {S A B} (m m' : M S A) (k k' : A → M S B) (s : S) :
  m s = m' s →
  (∀ a s1, m s = (s1, Ok a) → k a s1 = k' a s1) →
  bind m k s = bind m' k' s.
Proof.
  intros Hm Hk. unfold bind. rewrite <- Hm.
  destruct (m s) as [s1 [a|e|msg|]]; auto.
Qed.

Lemma os_Rename_no_dirs oldpath newpath (fs : gmap string string) :
  os_Rename_dirs ∅ oldpath newpath fs = os_Rename oldpath newpath fs.
Proof.
  unfold os_Rename_dirs. rewrite node_no_dirs. by destruct (fs !! newpath).
Qed.

Lemma getParentIds_no_dirs layersP (fs : gmap string string) :
  getParentIds_dirs ∅ layersP fs = getParentIds layersP fs.
Proof.
  unfold getParentIds_dirs, getParentIds, bind, os_Open_dirs, os_Open.
  rewrite node_no_dirs. by destruct (fs !! layersP).
Qed.

Lemma resolve_no_dirs functionM paras :
  ∀ composeS (fs : gmap string string),
  resolve_dirs ∅ functionM paras composeS fs
  = resolve functionM paras composeS fs.
Proof.
  induction paras as [|para paras IH]; intros composeS fs; simpl; [done|].
  unfold bind, os_Open_dirs, os_Open. rewrite node_no_dirs.
  destruct (fs !! layerdbP (map_get functionM para)); simpl; [apply IH|done].
Qed.

(** Where no directory stands, the two embeddings are one. *)
Lemma compose_no_dirs paras (fs : gmap string string) :
  compose_dirs ∅ paras fs = compose paras fs.
Proof.
  unfold compose_dirs, compose.
  apply bind_congr; [done|]. intros para0 fs1 [-> _]%index_Ok_inv.
  destruct (fs !! manifestP para0) as [manifestF|] eqn:HmF; last first.
  { erewrite (bind_Err (os_Open_dirs _ _))
      by (apply os_Open_dirs_None; by rewrite node_no_dirs, HmF).
    erewrite (bind_Err (os_Open _)) by (unfold os_Open; by rewrite HmF).
    done. }
  erewrite (bind_Ok (os_Open_dirs _ _))
    by (by apply os_Open_dirs_Some, node_file).
  erewrite (bind_Ok (os_Open _)) by (unfold os_Open; by rewrite HmF).
  apply bind_congr; [done|]. intros functionM fs1 _.
  apply bind_congr; [apply resolve_no_dirs|]. intros composeS fs2 _.
  apply bind_congr; [done|]. intros top fs3 _.
  apply bind_congr; [apply getParentIds_no_dirs|]. intros ids fs4 _.
  apply bind_congr; [apply os_Rename_no_dirs|]. done.
Qed.

(** ** The request with the empty name *)

Lemma empty_name_resolves :
  resolves_dirs manifest_dir empty_name_fs [""] ∅
    ["top"] "top" (fprintlns ["ca1"; "base"; "p1"; "p2"]).
Proof.
  split; [exists "", Directory|]; repeat split;
    try (vm_compute; reflexivity).
  vm_compute. discriminate.
Defined.

(** A request for the image [base_] has the empty name for its first name:
    the manifest path is the directory of the manifests, which [os.Open]
    opens. The scanner reads nothing from it, its error goes unnoticed, every
    name gets the empty digest, and [compose] goes on to rewrite the
    descriptor that the [cache-id] file under the digest directory names. *)
Example compose_dirs_empty_name :
  compose_dirs manifest_dir [""] empty_name_fs
  = (swapped empty_name_fs (layersP_of "top")
       (fprintlns ["ca1"; "base"; "p1"; "p2"]) (fprintlns ["top"]),
     Ok (layersP_of "top")).
Proof.
  rewrite (compose_dirs_Ok _ _ _ _ _ _ _ empty_name_resolves).
  do 2 f_equal.
Qed.

(** ** Failures before the first write *)

(** C9. When nothing that [os.Open] could open stands at the path of the
    manifest named by the first name of the request, or the manifest path is
    opened and loads and nothing stands at the [cache-id] path of one of the
    names, the reserved name included, [compose] returns the error of that
    [os.Open] and has changed no file: the descriptor, like every other
    file, is as it was. *)
Theorem compose_open_failure_writes_nothing
    dirs paras (fs : gmap string string) para0 :
  paras !! 0 = Some para0 →
  (node dirs fs (manifestP para0) = None ∨
   ∃ manifestF functionM para,
     node dirs fs (manifestP para0) = Some manifestF ∧
     load_manifest (bufio_Scan_File (manifestP para0) manifestF).1 ∅
       = Ok functionM ∧
     para ∈ paras ++ ["chainID"] ∧
     node dirs fs (layerdbP (map_get functionM para)) = None) →
  ∃ path, compose_dirs dirs paras fs = (fs, Err (PathError "open" path)).
Proof.
  intros Hp0 [Hnone|(manifestF & functionM & para & HmF & Hload & Hin & Hpara)];
    unfold compose_dirs; erewrite bind_Ok by (by apply index_Some).
  - eexists. by apply bind_Err, os_Open_dirs_None.
  - rewrite (bind_Ok _ _ _ _ _ (os_Open_dirs_Some _ _ _ _ HmF)).
    erewrite bind_Ok by (unfold lift_outcome; by rewrite Hload).
    destruct (resolve_dirs dirs functionM (paras ++ ["chainID"]) [] fs)
      as [fs1 r] eqn:Hr.
    pose proof Hr as Hr'.
    apply resolve_dirs_inv in Hr'
      as [-> [(ids & Hall & _)|(para' & _ & _ & ->)]].
    + apply list_elem_of_lookup in Hin as [i Hi].
      destruct (Forall2_lookup_l _ _ _ _ _ Hall Hi) as (id & _ & Hid).
      unfold cache_id_dirs in Hid. rewrite Hpara in Hid. discriminate.
    + eexists. apply (bind_Err _ _ _ _ _ Hr).
Qed.

Lemma compose_open_failure_writes_nothing_witness :
  ∃ path, compose_dirs manifest_dir ["f1"; "f3"] example_fs
          = (example_fs, Err (PathError "open" path)).
Proof.
  apply (compose_open_failure_writes_nothing
           manifest_dir ["f1"; "f3"] example_fs "f1"); [reflexivity|].
  right. exists (Regular example_manifest), example_functionM, "f3".
  split; [vm_compute; reflexivity|].
  split; [vm_compute; reflexivity|].
  split; [|vm_compute; reflexivity].
  apply list_elem_of_In. simpl. tauto.
Defined.

(** ** What a failed resolution leaves *)

(** X6. When the request does not resolve, that is when it is empty, or
    nothing that [os.Open] could open stands at the path of its manifest or
    of one of the [cache-id] files, or a line of the manifest has no comma,
    or the descriptor is not a regular file that the scanner reads to its
    end, or a directory stands at the backup path, [compose] returns an
    error or panics before any file is renamed, created or written, and
    every file is as it was. *)
Theorem compose_dirs_unresolved_changes_nothing
    dirs paras (fs : gmap string string) :
  (∀ functionM funcs top D,
     ¬ resolves_dirs dirs fs paras functionM funcs top D) →
  ∃ r, compose_dirs dirs paras fs = (fs, r) ∧
       ((∃ e, r = Err e) ∨ (∃ msg, r = Panic msg)).
Proof.
  intros Hno.
  destruct (compose_dirs_outcomes dirs paras fs)
    as [(functionM & funcs & top & D & Hres)|Hfail]; [|done].
  by destruct (Hno _ _ _ _ Hres).
Qed.

Lemma no_descriptor_unresolved :
  ∀ functionM funcs top D,
    ¬ resolves_dirs manifest_dir no_descriptor_fs ["f1"; "f2"]
        functionM funcs top D.
Proof.
  intros functionM funcs top D
    ((para0 & manifestF & Hp0 & HmF & Hload) & _ & Htop & HD & _).
  simpl in Hp0. injection Hp0 as <-.
  assert (node manifest_dir no_descriptor_fs (manifestP "f1")
          = Some (Regular example_manifest)) as HmF'
    by (vm_compute; reflexivity).
  rewrite HmF' in HmF. injection HmF as <-.
  change (load_manifest (bufio_Scan example_manifest).1 ∅ = Ok functionM)
    in Hload.
  rewrite example_manifest_loads in Hload.
  injection Hload as <-.
  assert (cache_id_dirs manifest_dir no_descriptor_fs example_functionM
            "chainID" = Some "top")
    as Htop' by (vm_compute; reflexivity).
  rewrite Htop' in Htop. injection Htop as <-.
  unfold no_descriptor_fs in HD. rewrite lookup_delete_eq in HD.
  discriminate HD.
Defined.

Lemma compose_dirs_unresolved_changes_nothing_witness :
  ∃ r, compose_dirs manifest_dir ["f1"; "f2"] no_descriptor_fs
       = (no_descriptor_fs, r) ∧
       ((∃ e, r = Err e) ∨ (∃ msg, r = Panic msg)).
Proof.
  apply (compose_dirs_unresolved_changes_nothing
           manifest_dir ["f1"; "f2"] no_descriptor_fs).
  exact no_descriptor_unresolved.
Defined.
